(** * FastViewer: display level, auto-play, notification and content hooks

    A shallow embedding of the React hooks of the viewer front end
    ([useDisplayLevel], [useAutoPlay], [useNotification],
    [useImageContent], [useKeyboard]), of the key map and the render
    conditions of [App] and of the file name of [ImageInfo], together
    with the properties stated about them.

    Conventions of the embedding.
    - A [useState] cell and a [useRef] cell are both fields of the hook's
      state record; a setter call assigns the field.
    - The timers of the JavaScript runtime are a finite map from timer
      handles to pending callbacks.  Handles are positive numbers, so a
      stored handle is always truthy in a test such as
      [if (timer.current)].
    - [Date.now()] is an explicit argument [now] of every handler.
    - Handlers run to completion.  In [useDisplayLevel], whose handlers
      read a ref that an effect writes, the render that follows a handler
      is a turn of the event loop of its own, so that other handlers can
      run before it; in [useAutoPlay] the effect of a render is applied
      with the handler that caused the render. *)

From stdpp Require Import base numbers option list gmap fin_maps strings.
From Stdlib Require Import ZArith Lia QArith Qcanon.

Open Scope Z_scope.

(** ** useDisplayLevel *)

Module DisplayLevel.

(** A pending [setTimeout]: when it is due and the level its callback
    passes to [setDisplayLevel]. *)
Record timer := Timer { due : Z; target : Z }.

(** The value of [lastMouseDownLevel.current]. *)
Record snapshot := Snapshot { level : Z; timestamp : Z }.

Record state := State {
  displayLevel : Z;
  displayLevelRef : Z;
  mouseIdleTimer : option positive;
  level2Timer : option positive;
  level3Timer : option positive;
  previousSceneIndex : option Z;
  lastMouseDownLevel : snapshot;
  timers : gmap positive timer;
  nextTimerId : positive;
  listening : bool
}.

#[global] Instance timer_eq_dec : EqDecision timer.
Proof. solve_decision. Defined.

#[global] Instance snapshot_eq_dec : EqDecision snapshot.
Proof. solve_decision. Defined.

(** Field assignments. *)
Definition setDisplayLevel (v : Z) (st : state) : state :=
  State v (displayLevelRef st) (mouseIdleTimer st) (level2Timer st)
    (level3Timer st) (previousSceneIndex st) (lastMouseDownLevel st)
    (timers st) (nextTimerId st) (listening st).

Definition set_displayLevelRef (v : Z) (st : state) : state :=
  State (displayLevel st) v (mouseIdleTimer st) (level2Timer st)
    (level3Timer st) (previousSceneIndex st) (lastMouseDownLevel st)
    (timers st) (nextTimerId st) (listening st).

Definition set_mouseIdleTimer (h : option positive) (st : state) : state :=
  State (displayLevel st) (displayLevelRef st) h (level2Timer st)
    (level3Timer st) (previousSceneIndex st) (lastMouseDownLevel st)
    (timers st) (nextTimerId st) (listening st).

Definition set_level2Timer (h : option positive) (st : state) : state :=
  State (displayLevel st) (displayLevelRef st) (mouseIdleTimer st) h
    (level3Timer st) (previousSceneIndex st) (lastMouseDownLevel st)
    (timers st) (nextTimerId st) (listening st).

Definition set_level3Timer (h : option positive) (st : state) : state :=
  State (displayLevel st) (displayLevelRef st) (mouseIdleTimer st)
    (level2Timer st) h (previousSceneIndex st) (lastMouseDownLevel st)
    (timers st) (nextTimerId st) (listening st).

Definition set_previousSceneIndex (i : option Z) (st : state) : state :=
  State (displayLevel st) (displayLevelRef st) (mouseIdleTimer st)
    (level2Timer st) (level3Timer st) i (lastMouseDownLevel st)
    (timers st) (nextTimerId st) (listening st).

Definition set_lastMouseDownLevel (s : snapshot) (st : state) : state :=
  State (displayLevel st) (displayLevelRef st) (mouseIdleTimer st)
    (level2Timer st) (level3Timer st) (previousSceneIndex st) s
    (timers st) (nextTimerId st) (listening st).

Definition set_listening (b : bool) (st : state) : state :=
  State (displayLevel st) (displayLevelRef st) (mouseIdleTimer st)
    (level2Timer st) (level3Timer st) (previousSceneIndex st)
    (lastMouseDownLevel st) (timers st) (nextTimerId st) b.

(** [setTimeout(() => setDisplayLevel(lvl), delay)]: a fresh handle is
    returned and the callback is pending until [now + delay]. *)
Definition setTimeout (now delay lvl : Z) (st : state) : positive * state :=
  (nextTimerId st,
   State (displayLevel st) (displayLevelRef st) (mouseIdleTimer st)
     (level2Timer st) (level3Timer st) (previousSceneIndex st)
     (lastMouseDownLevel st)
     (<[nextTimerId st := Timer (now + delay) lvl]> (timers st))
     (Pos.succ (nextTimerId st)) (listening st)).

(** [clearTimeout(h)]: the callback of [h] never runs; clearing a handle
    that already fired or was already cleared does nothing. *)
Definition clearTimeout (h : positive) (st : state) : state :=
  State (displayLevel st) (displayLevelRef st) (mouseIdleTimer st)
    (level2Timer st) (level3Timer st) (previousSceneIndex st)
    (lastMouseDownLevel st) (delete h (timers st)) (nextTimerId st)
    (listening st).

(** [if (ref.current) clearTimeout(ref.current)]. *)
Definition clearIfSet (r : option positive) (st : state) : state :=
  match r with
  | Some h => clearTimeout h st
  | None => st
  end.

(** The idle timer that every handler ends with:
    [mouseIdleTimer.current = setTimeout(() => setDisplayLevel(0), 3000)]. *)
Definition scheduleIdle (now : Z) (st : state) : state :=
  let '(h, st) := setTimeout now 3000 0 st in
  set_mouseIdleTimer (Some h) st.

(** The level the scene change effect looks at: the level recorded by
    the last mouse down when that is less than 500 ms ago, the current
    level otherwise. *)
Definition levelToCheck (now : Z) (st : state) : Z :=
  let timeSinceMouseDown := now - timestamp (lastMouseDownLevel st) in
  if timeSinceMouseDown <? 500
  then level (lastMouseDownLevel st)
  else displayLevelRef st.

(** The effect on [sceneIndex] (scene change detection). *)
Definition sceneChangeEffect (sceneIndex : option Z) (now : Z) (st : state)
  : state :=
  match sceneIndex with
  | None => st
  | Some idx =>
    let st :=
      match previousSceneIndex st with
      | Some prev =>
        if bool_decide (prev ≠ idx) then
          if levelToCheck now st =? 0 then
            let st := setDisplayLevel 1 st in
            let st := clearIfSet (mouseIdleTimer st) st in
            scheduleIdle now st
          else st
        else st
      | None => st
      end in
    set_previousSceneIndex (Some idx) st
  end.

Definition handleMouseMove (now : Z) (st : state) : state :=
  let st := clearIfSet (mouseIdleTimer st) st in
  let st :=
    if displayLevelRef st =? 0 then
      let st := clearIfSet (level2Timer st) st in
      let st := clearIfSet (level3Timer st) st in
      let st := setDisplayLevel 1 st in
      let '(h2, st) := setTimeout now 200 2 st in
      let st := set_level2Timer (Some h2) st in
      let '(h3, st) := setTimeout now 500 3 st in
      set_level3Timer (Some h3) st
    else st in
  scheduleIdle now st.

Definition handleMouseDown (now : Z) (st : state) : state :=
  let st := set_lastMouseDownLevel (Snapshot (displayLevelRef st) now) st in
  let st := clearIfSet (mouseIdleTimer st) st in
  let st :=
    if displayLevelRef st =? 0 then
      let st := clearIfSet (level2Timer st) st in
      let st := clearIfSet (level3Timer st) st in
      setDisplayLevel 3 st
    else st in
  scheduleIdle now st.

(** The cleanup of the mount effect: both listeners are removed and the
    three tracked timers are cleared. *)
Definition cleanup (st : state) : state :=
  let st := set_listening false st in
  let st := clearIfSet (mouseIdleTimer st) st in
  let st := clearIfSet (level2Timer st) st in
  clearIfSet (level3Timer st) st.

(** The effect that keeps [displayLevelRef] equal to the rendered level. *)
Definition syncRef (st : state) : state :=
  set_displayLevelRef (displayLevel st) st.

(** The runtime runs timer callbacks in the order of their due times;
    among equal due times the older handle goes first. *)
Definition precedes (h : positive) (t : timer) (h' : positive) (t' : timer)
  : Prop :=
  due t < due t' ∨ (due t = due t' ∧ (h ≤ h')%positive).

#[global] Instance precedes_dec h t h' t' : Decision (precedes h t h' t').
Proof. unfold precedes. apply _. Defined.

(** A timer callback runs: the handle must be pending, due, and first in
    the order of the runtime.  The callback calls [setDisplayLevel]. *)
Definition fireTimeout (now : Z) (h : positive) (st : state) : option state :=
  match timers st !! h with
  | Some t =>
    if bool_decide (due t ≤ now ∧
                    map_Forall (λ h' t', precedes h t h' t') (timers st))
    then Some (setDisplayLevel (target t) (clearTimeout h st))
    else None
  | None => None
  end.

(** The state right after mount: nothing is shown, no timer is pending,
    the two listeners are registered. *)
Definition init : state :=
  State 0 0 None None None None (Snapshot 0 0) ∅ 1%positive true.

Inductive event :=
| PointerMove
| PointerDown
| SceneIndex (sceneIndex : option Z)
| Timeout (h : positive)
| Render
| Unmount.

(** One turn of the event loop at time [now].  [displayLevel] is the
    state cell, the level of the last [setDisplayLevel].  A handler or a
    timer callback only assigns it; the effect that copies it to
    [displayLevelRef] runs after the render that follows, a turn of its
    own ([Render]), so that other handlers can run before it and read the
    level of the render before.  A new [sceneIndex] comes with a render,
    whose effects run in the order of the hook: the copy first, then the
    scene change effect.  After the cleanup nothing of the hook runs. *)
Definition step (now : Z) (ev : event) (st : state) : option state :=
  match ev with
  | Timeout h => fireTimeout now h st
  | PointerMove =>
    if listening st then Some (handleMouseMove now st) else None
  | PointerDown =>
    if listening st then Some (handleMouseDown now st) else None
  | SceneIndex i =>
    if listening st then Some (sceneChangeEffect i now (syncRef st))
    else None
  | Render =>
    if listening st then Some (syncRef st) else None
  | Unmount =>
    if listening st then Some (cleanup st) else None
  end.

(** Runs a list of timed events; the clock never goes back. *)
Fixpoint run (clock : Z) (evs : list (Z * event)) (st : state)
  : option state :=
  match evs with
  | [] => Some st
  | (now, ev) :: evs =>
    if bool_decide (clock ≤ now) then
      match step now ev st with
      | Some st' => run now evs st'
      | None => None
      end
    else None
  end.

(** States of the hook that some execution reaches, with the time of the
    last event.  [Date.now()] counts milliseconds since 1970, so the clock
    starts beyond the 500 ms window of the initial snapshot. *)
Inductive reachable : Z → state → Prop :=
| reachable_init now : 500 ≤ now → reachable now init
| reachable_step now now' ev st st' :
    reachable now st → now ≤ now' → step now' ev st = Some st' →
    reachable now' st'.

(** An event together with the render it causes, with nothing in
    between; unmounting causes no render. *)
Definition promptStep (now : Z) (ev : event) (st : state) : option state :=
  match ev with
  | Unmount => step now Unmount st
  | _ => step now ev st ≫= step now Render
  end.

(** The executions in which every event is rendered before the next one
    arrives, so that no handler reads a stale [displayLevelRef]. *)
Inductive prompt : Z → state → Prop :=
| prompt_init now : 500 ≤ now → prompt now init
| prompt_step now now' ev st st' :
    prompt now st → now ≤ now' → promptStep now' ev st = Some st' →
    prompt now' st'.

(** *** Well-formed timer tables *)

(** Handles come from a counter, so every handle in use is below it. *)
Definition fresh (st : state) : Prop :=
  (∀ h t, timers st !! h = Some t → (h < nextTimerId st)%positive) ∧
  (∀ h, mouseIdleTimer st = Some h → (h < nextTimerId st)%positive) ∧
  (∀ h, level2Timer st = Some h → (h < nextTimerId st)%positive) ∧
  (∀ h, level3Timer st = Some h → (h < nextTimerId st)%positive).

(** Every pending callback is remembered by the ref of its purpose, and
    by that ref only. *)
Definition tracked (st : state) : Prop :=
  ∀ h t, timers st !! h = Some t →
    (target t = 0 ∨ target t = 2 ∨ target t = 3) ∧
    (mouseIdleTimer st = Some h ↔ target t = 0) ∧
    (level2Timer st = Some h ↔ target t = 2) ∧
    (level3Timer st = Some h ↔ target t = 3).

Definition wf (st : state) : Prop := fresh st ∧ tracked st.

(** The pending idle deadline of a state: remembered by
    [mouseIdleTimer], due at [d], and the only callback that resets the
    level to 0. *)
Definition idleAt (d : Z) (st : state) : Prop :=
  ∃ h, mouseIdleTimer st = Some h ∧ timers st !! h = Some (Timer d 0) ∧
       ∀ h' t', timers st !! h' = Some t' → target t' = 0 → h' = h.

(** The pending deadline towards level [lvl], remembered by [ref]. *)
Definition deadlineAt (ref : state → option positive) (lvl d : Z)
    (st : state) : Prop :=
  ∃ h, ref st = Some h ∧ timers st !! h = Some (Timer d lvl) ∧
       ∀ h' t', timers st !! h' = Some t' → target t' = lvl → h' = h.

(** No callback towards level [lvl] is pending. *)
Definition noDeadline (lvl : Z) (st : state) : Prop :=
  ∀ h t, timers st !! h = Some t → target t ≠ lvl.

(** The handle in [ref] is no longer pending. *)
Definition canceled (ref : option positive) (st : state) : Prop :=
  ∀ h, ref = Some h → timers st !! h = None.

(** Evaluates the handlers on a state given by its fields. *)
Ltac hook_eval :=
  cbv [handleMouseMove handleMouseDown sceneChangeEffect levelToCheck cleanup
    syncRef scheduleIdle clearIfSet setTimeout clearTimeout
    setDisplayLevel set_displayLevelRef set_mouseIdleTimer
    set_level2Timer set_level3Timer set_previousSceneIndex
    set_lastMouseDownLevel set_listening
    displayLevel displayLevelRef mouseIdleTimer level2Timer level3Timer
    previousSceneIndex lastMouseDownLevel timers nextTimerId listening]
    in *.

(** *** The invariant of the reachable states *)

(** The pending callback a ref remembers, if there is one. *)
Definition pendingOf (ref : state → option positive) (st : state)
  : option timer :=
  match ref st with
  | Some h => timers st !! h
  | None => None
  end.

(** What the pending deadlines say about the level, whatever the order
    of handlers and renders.  The deadlines towards 2 and 3 are set
    together at level 1, 300 ms apart; a scene change can bring the level
    back to 1 while the second is pending.  A reveal started in the past,
    so its last deadline is at most 500 ms ahead, and the idle deadline
    comes at least 2500 ms after it.  With no deadline at all nothing is
    shown. *)
Definition paced (now : Z) (st : state) : Prop :=
  match pendingOf level2Timer st, pendingOf level3Timer st,
        pendingOf mouseIdleTimer st with
  | Some t2, Some t3, Some ti =>
    displayLevel st = 1 ∧ due t3 = due t2 + 300 ∧
    due t3 ≤ now + 500 ∧ due t3 + 2500 ≤ due ti
  | None, Some t3, Some ti =>
    (displayLevel st = 1 ∨ displayLevel st = 2) ∧
    due t3 ≤ now + 500 ∧ due t3 + 2500 ≤ due ti
  | None, None, Some ti => True
  | None, None, None => displayLevel st = 0
  | _, _, _ => False
  end.

Definition inv (now : Z) (st : state) : Prop :=
  wf st ∧ 0 ≤ displayLevel st ≤ 3 ∧
  (if listening st then paced now st else timers st = ∅).

(** The level changes a single event can make in any execution. *)
Inductive transition : event → Z → Z → Prop :=
| tr_same ev l : transition ev l l
| tr_move l : transition PointerMove l 1
| tr_scene i l : transition (SceneIndex i) l 1
| tr_jump l : transition PointerDown l 3
| tr_level2 h : transition (Timeout h) 1 2
| tr_level3 h l : l = 1 ∨ l = 2 → transition (Timeout h) l 3
| tr_idle h l : transition (Timeout h) l 0.

(** How an event may lower the level: the idle deadline, a mouse move
    that read level 0 from the ref although more is shown, or a scene
    change less than 500 ms after a click that read level 0. *)
Definition lowering (now : Z) (ev : event) (st st' : state) : Prop :=
  (∃ h t, ev = Timeout h ∧ timers st !! h = Some t ∧ target t = 0 ∧
          displayLevel st' = 0) ∨
  (ev = PointerMove ∧ displayLevelRef st = 0 ∧ displayLevel st' = 1) ∨
  (∃ i, ev = SceneIndex (Some i) ∧ displayLevel st' = 1 ∧
        level (lastMouseDownLevel st) = 0 ∧
        now - timestamp (lastMouseDownLevel st) < 500).

(** *** Executions without a stale ref *)

(** The stages of a reveal, read off the pending deadlines: a move at
    level 0 leaves the deadlines towards 2 and 3 pending at level 1; the
    first brings the level to 2, the second to 3; a click or a scene change
    leaves the idle deadline alone. *)
Definition staged (now : Z) (st : state) : Prop :=
  match pendingOf level2Timer st, pendingOf level3Timer st,
        pendingOf mouseIdleTimer st with
  | Some t2, Some t3, Some ti =>
    displayLevel st = 1 ∧ due t3 = due t2 + 300 ∧
    due t3 ≤ now + 500 ∧ due t3 + 2500 ≤ due ti
  | None, Some t3, Some ti =>
    displayLevel st = 2 ∧ due t3 ≤ now + 500 ∧ due t3 + 2500 ≤ due ti
  | None, None, Some ti => displayLevel st = 1 ∨ displayLevel st = 3
  | None, None, None => displayLevel st = 0
  | _, _, _ => False
  end.

(** While the snapshot of a click at level 0 is less than 500 ms old only
    the idle deadline is pending, 3000 ms or more after the click. *)
Definition clickWindow (now : Z) (st : state) : Prop :=
  level (lastMouseDownLevel st) = 0 →
  now < timestamp (lastMouseDownLevel st) + 500 →
  pendingOf level2Timer st = None ∧ pendingOf level3Timer st = None ∧
  match pendingOf mouseIdleTimer st with
  | Some ti => timestamp (lastMouseDownLevel st) + 3000 ≤ due ti
  | None => False
  end.

(** The invariant of the executions without a stale ref. *)
Definition settled (now : Z) (st : state) : Prop :=
  displayLevelRef st = displayLevel st ∧ wf st ∧
  timestamp (lastMouseDownLevel st) ≤ now ∧
  (if listening st then staged now st ∧ clickWindow now st
   else timers st = ∅).

(** The level changes a single event can make when the ref is current. *)
Inductive promptTransition : event → Z → Z → Prop :=
| ptr_same ev l : promptTransition ev l l
| ptr_move : promptTransition PointerMove 0 1
| ptr_scene i : promptTransition (SceneIndex i) 0 1
| ptr_level2 h : promptTransition (Timeout h) 1 2
| ptr_level3 h : promptTransition (Timeout h) 2 3
| ptr_jump : promptTransition PointerDown 0 3
| ptr_idle h l : promptTransition (Timeout h) l 0
| ptr_scene_after_click i : promptTransition (SceneIndex i) 3 1.

(** How an event may lower the level when the ref is current. *)
Definition promptLowering (now : Z) (ev : event) (st st' : state) : Prop :=
  (∃ h t, ev = Timeout h ∧ timers st !! h = Some t ∧ target t = 0 ∧
          displayLevel st' = 0) ∨
  (∃ i, ev = SceneIndex (Some i) ∧
        displayLevel st = 3 ∧ displayLevel st' = 1 ∧
        level (lastMouseDownLevel st) = 0 ∧
        now - timestamp (lastMouseDownLevel st) < 500).

(** *** Whole executions *)

(** A list of events, each followed by the render it causes when
    [rendered]. *)
Definition eachRendered (rendered : bool) (evs : list (Z * event))
  : list (Z * event) :=
  if rendered then evs ≫= (λ p, [p; (p.1, Render)]) else evs.

(** Something is shown, and the reset to 0 is not due before [d]. *)
Definition shownUntil (d : Z) (st : state) : Prop :=
  wf st ∧ displayLevel st ≠ 0 ∧
  ∀ ti, pendingOf mouseIdleTimer st = Some ti → d ≤ due ti.


End DisplayLevel.

(** ** useAutoPlay *)

(** The speed is a fraction ([0.5] to [3.0] in steps of [0.1] from the
    slider), so the delay [baseInterval / speed] is not an integer: speed,
    delays and the clock of this hook are rationals. *)

Module AutoPlay.
Local Open Scope Qc_scope.

(** The two callbacks the hook is given. *)
Inductive callback := OnNext | OnPrev.

(** A running [setInterval]: the delay it was given, the time that delay
    asks for the next run, and the value of [reverse] its callback closed
    over. *)
Record interval := Interval {
  period : Qc;
  due : Qc;
  closedReverse : bool
}.

Record state := State {
  isPlaying : bool;
  speed : Qc;
  reverse : bool;
  pausedUntil : Qc;
  intervals : gmap positive interval;
  nextIntervalId : positive;
  (** the [interval] constant the cleanup of the last effect closed over *)
  effectInterval : option positive
}.

Definition baseInterval : Qc := Qc_of_Z 2400.

Definition set_isPlaying (b : bool) (st : state) : state :=
  State b (speed st) (reverse st) (pausedUntil st) (intervals st)
    (nextIntervalId st) (effectInterval st).

Definition set_speed (m : Qc) (st : state) : state :=
  State (isPlaying st) m (reverse st) (pausedUntil st) (intervals st)
    (nextIntervalId st) (effectInterval st).

Definition set_reverse (b : bool) (st : state) : state :=
  State (isPlaying st) (speed st) b (pausedUntil st) (intervals st)
    (nextIntervalId st) (effectInterval st).

Definition set_pausedUntil (t : Qc) (st : state) : state :=
  State (isPlaying st) (speed st) (reverse st) t (intervals st)
    (nextIntervalId st) (effectInterval st).

(** The body of the effect: nothing when not playing, otherwise
    [setInterval(callback, baseInterval / speed)]. *)
Definition effect (now : Qc) (st : state) : state :=
  if isPlaying st then
    let delay := baseInterval / speed st in
    State (isPlaying st) (speed st) (reverse st) (pausedUntil st)
      (<[nextIntervalId st := Interval delay (now + delay) (reverse st)]>
         (intervals st))
      (Pos.succ (nextIntervalId st)) (Some (nextIntervalId st))
  else
    State (isPlaying st) (speed st) (reverse st) (pausedUntil st)
      (intervals st) (nextIntervalId st) None.

(** The cleanup the effect returned, [() => clearInterval(interval)];
    an effect that returned early left no cleanup. *)
Definition cleanupEffect (st : state) : state :=
  match effectInterval st with
  | Some h =>
    State (isPlaying st) (speed st) (reverse st) (pausedUntil st)
      (delete h (intervals st)) (nextIntervalId st) None
  | None => st
  end.

(** The dependencies of the effect that are state of the hook; the two
    callbacks never change. *)
Definition deps (st : state) : bool * Qc * bool :=
  (isPlaying st, speed st, reverse st).

(** A render after a state change: when a dependency differs from the
    previous render the cleanup runs and then the effect, otherwise the
    effect is left alone. *)
Definition render (now : Qc) (old new : state) : state :=
  if bool_decide (deps old = deps new) then new
  else effect now (cleanupEffect new).

Definition togglePlay (now : Qc) (st : state) : state :=
  render now st (set_isPlaying (negb (isPlaying st)) st).

Definition setSpeed (m : Qc) (now : Qc) (st : state) : state :=
  render now st (set_speed m st).

Definition toggleReverse (now : Qc) (st : state) : state :=
  render now st (set_reverse (negb (reverse st)) st).

(** [pausedUntil.current = Date.now() + duration]; a ref, so no render. *)
Definition pause (duration : Qc) (now : Qc) (st : state) : state :=
  set_pausedUntil (now + duration) st.

(** The callback of the interval: nothing while paused, otherwise one
    of the two callbacks, by the direction it closed over. *)
Definition onTick (now : Qc) (iv : interval) (st : state) : option callback :=
  if bool_decide (now < pausedUntil st) then None
  else Some (if closedReverse iv then OnPrev else OnNext).

(** The runtime runs the callback of a pending interval and asks for
    the next run one period later.  When exactly it does so is its own
    business (it rounds the delay and can be late), so [now] is whatever
    [Date.now()] returns in that run; an interval that was cleared never
    runs. *)
Definition tick (now : Qc) (h : positive) (st : state)
  : option (state * option callback) :=
  match intervals st !! h with
  | Some iv =>
    Some (State (isPlaying st) (speed st) (reverse st) (pausedUntil st)
            (<[h := Interval (period iv) (due iv + period iv)
                      (closedReverse iv)]> (intervals st))
            (nextIntervalId st) (effectInterval st),
          onTick now iv st)
  | None => None
  end.

(** After mount: not playing, speed 1, forward, never paused; the first
    run of the effect returned early. *)
Definition init : state := State false 1 false 0 ∅ 1%positive None.

(** Unmount runs the cleanup of the last effect. *)
Definition unmount (st : state) : state := cleanupEffect st.

Inductive event :=
| TogglePlay
| SetSpeed (m : Qc)
| ToggleReverse
| Pause (duration : Qc)
| Tick (h : positive).

Definition step (now : Qc) (ev : event) (st : state)
  : option (state * option callback) :=
  match ev with
  | TogglePlay => Some (togglePlay now st, None)
  | SetSpeed m => Some (setSpeed m now st, None)
  | ToggleReverse => Some (toggleReverse now st, None)
  | Pause d => Some (pause d now st, None)
  | Tick h => tick now h st
  end.

(** Runs timed events and collects the callbacks that were invoked, with
    the time of each invocation. *)
Fixpoint run (evs : list (Qc * event)) (st : state)
  : option (state * list (Qc * callback)) :=
  match evs with
  | [] => Some (st, [])
  | (now, ev) :: evs =>
    match step now ev st with
    | Some (st', out) =>
      match run evs st' with
      | Some (st'', outs) =>
        Some (st'', match out with
                    | Some cb => (now, cb) :: outs
                    | None => outs
                    end)
      | None => None
      end
    | None => None
    end
  end.

Inductive reachable : state → Prop :=
| reachable_init : reachable init
| reachable_step now ev st st' out :
    reachable st → step now ev st = Some (st', out) → reachable st'.

(** The one interval of a playing hook, none otherwise. *)
Definition inv (st : state) : Prop :=
  (∀ h iv, intervals st !! h = Some iv → (h < nextIntervalId st)%positive) ∧
  if isPlaying st then
    ∃ h iv, effectInterval st = Some h ∧ intervals st = {[h := iv]} ∧
            period iv = baseInterval / speed st ∧
            closedReverse iv = reverse st
  else intervals st = ∅.

(** The reading of the restart statement for every call of [setSpeed]:
    whatever the argument, the interval is replaced by one that starts
    now. *)
Definition everySetSpeedRestarts : Prop :=
  ∀ now m st,
    reachable st → isPlaying st = true →
    ∃ h, intervals (setSpeed m now st)
         = {[h := Interval (baseInterval / m) (now + baseInterval / m)
                      (reverse st)]}.

End AutoPlay.

(** ** useNotification *)

Module Notification.

Record state := State {
  notification : option string;
  notificationTimer : option positive;
  (** pending [setTimeout] callbacks, each with its due time; every
      callback of this hook is [() => setNotification(null)] *)
  timers : gmap positive Z;
  nextTimerId : positive
}.

(** [showNotification(message, duration = 2000)]. *)
Definition showNotification (message : string) (duration : option Z)
    (now : Z) (st : state) : state :=
  let duration := default 2000 duration in
  let pending :=
    match notificationTimer st with
    | Some h => delete h (timers st)
    | None => timers st
    end in
  State (Some message) (Some (nextTimerId st))
    (<[nextTimerId st := now + duration]> pending)
    (Pos.succ (nextTimerId st)).

(** The callback of a pending timer that is due: [setNotification(null)]. *)
Definition fireTimeout (now : Z) (h : positive) (st : state) : option state :=
  match timers st !! h with
  | Some due =>
    if bool_decide (due ≤ now)
    then Some (State None (notificationTimer st) (delete h (timers st))
                 (nextTimerId st))
    else None
  | None => None
  end.

Definition init : state := State None None ∅ 1%positive.

Inductive event :=
| ShowNotification (message : string) (duration : option Z)
| Timeout (h : positive).

Definition step (now : Z) (ev : event) (st : state) : option state :=
  match ev with
  | ShowNotification message duration =>
    Some (showNotification message duration now st)
  | Timeout h => fireTimeout now h st
  end.

Inductive reachable : state → Prop :=
| reachable_init : reachable init
| reachable_step now ev st st' :
    reachable st → step now ev st = Some st' → reachable st'.

(** The only callback that can be pending is the one the ref remembers,
    and handles in use are below the counter. *)
Definition wf (st : state) : Prop :=
  (∀ h d, timers st !! h = Some d →
     notificationTimer st = Some h ∧ (h < nextTimerId st)%positive) ∧
  (∀ h, notificationTimer st = Some h → (h < nextTimerId st)%positive).

End Notification.

(** ** useImageContent *)

(** The handlers of this hook are [async] functions.  An [async] function
    runs until its next [await]; there it is suspended until the awaited
    command of the backend settles, and other handlers run in between.
    A handler is embedded as a tree of its steps, so that the same
    definition gives both its result for given answers of the backend and
    its interleavings with other handlers. *)

Module ImageContent.
Local Open Scope string_scope.

Record SceneInfo := mkSceneInfo {
  scene_name : string;
  scene_index : Z;
  total_pages : Z;
  current_page : Z
}.

Record ImageData := mkImageData {
  main_image : option string;
  thumbnail_image : option string;
  page_index : Z;
  image_scene_index : Z;
  image_path : string;
  is_preview : bool
}.

(** The calls that cross the boundary to the backend: the path API and
    the commands of [imageService]. *)
Inductive command :=
| AppDataDir
| Join (appData dir sceneName : string)
| LoadSceneCollection (path : string)
| GetSceneInfo
| GetImage (sceneIndex : option Z) (pageIndex : Z)
| NextPage
| PrevPage
| NextScene
| PrevScene
| GetSceneLoopEnabled
| SetSceneLoopEnabled (enabled : bool).

(** The type of the value a command resolves to. *)
Definition ret (c : command) : Type :=
  match c with
  | AppDataDir | Join _ _ _ => string
  | LoadSceneCollection _ | SetSceneLoopEnabled _ => unit
  | GetSceneInfo | NextScene | PrevScene => SceneInfo
  | GetImage _ _ | NextPage | PrevPage => ImageData
  | GetSceneLoopEnabled => bool
  end.

(** How the promise of a command settles: fulfilled with a value or
    rejected with an error. *)
Definition settled (c : command) : Type := (ret c + string)%type.

Inductive entry :=
| Log (message : string)
| Error (message err : string).

(** The state cells and the ref of the hook, and the console. *)
Record store := Store {
  imageData : option ImageData;
  sceneInfo : option SceneInfo;
  loading : bool;
  error : option string;
  sceneLoopEnabled : bool;
  isNavigating : bool;
  console : list entry
}.

Inductive async (A : Type) : Type :=
| Return (a : A)
| Throw (err : string)
| Read (k : store → async A)
| Write (f : store → store) (k : async A)
| Await (c : command) (k : settled c → async A).

Arguments Return {A} a.
Arguments Throw {A} err.
Arguments Read {A} k.
Arguments Write {A} f k.
Arguments Await {A} c k.

Fixpoint async_bind {A B} (f : A → async B) (m : async A) : async B :=
  match m with
  | Return a => f a
  | Throw err => Throw err
  | Read k => Read (λ s, async_bind f (k s))
  | Write g k => Write g (async_bind f k)
  | Await c k => Await c (λ r, async_bind f (k r))
  end.

#[global] Instance async_ret : MRet async := @Return.
#[global] Instance async_mbind : MBind async := @async_bind.

(** [try { body } catch (err) { handler err }]. *)
Fixpoint tryCatch {A} (body : async A) (handler : string → async A)
  : async A :=
  match body with
  | Return a => Return a
  | Throw err => handler err
  | Read k => Read (λ s, tryCatch (k s) handler)
  | Write g k => Write g (tryCatch k handler)
  | Await c k => Await c (λ r, tryCatch (k r) handler)
  end.

(** [try { body } finally { final }]: [final] runs on both exits and the
    exit of [body] is kept. *)
Fixpoint tryFinally {A} (body : async A) (final : async unit) : async A :=
  match body with
  | Return a => final ;; Return a
  | Throw err => final ;; Throw err
  | Read k => Read (λ s, tryFinally (k s) final)
  | Write g k => Write g (tryFinally k final)
  | Await c k => Await c (λ r, tryFinally (k r) final)
  end.

(** [await command]: the value when the promise is fulfilled, a throw
    when it is rejected. *)
Definition await (c : command) : async (ret c) :=
  Await c (λ r, match r with
                | inl v => Return v
                | inr err => Throw err
                end).

Definition modify (f : store → store) : async unit := Write f (Return tt).

Definition setImageData (d : ImageData) : async unit :=
  modify (λ s, Store (Some d) (sceneInfo s) (loading s) (error s)
                 (sceneLoopEnabled s) (isNavigating s) (console s)).

Definition setSceneInfo (i : SceneInfo) : async unit :=
  modify (λ s, Store (imageData s) (Some i) (loading s) (error s)
                 (sceneLoopEnabled s) (isNavigating s) (console s)).

Definition setLoading (b : bool) : async unit :=
  modify (λ s, Store (imageData s) (sceneInfo s) b (error s)
                 (sceneLoopEnabled s) (isNavigating s) (console s)).

Definition setError (e : option string) : async unit :=
  modify (λ s, Store (imageData s) (sceneInfo s) (loading s) e
                 (sceneLoopEnabled s) (isNavigating s) (console s)).

Definition setSceneLoopEnabled (b : bool) : async unit :=
  modify (λ s, Store (imageData s) (sceneInfo s) (loading s) (error s)
                 b (isNavigating s) (console s)).

Definition setIsNavigating (b : bool) : async unit :=
  modify (λ s, Store (imageData s) (sceneInfo s) (loading s) (error s)
                 (sceneLoopEnabled s) b (console s)).

Definition consoleLog (message : string) : async unit :=
  modify (λ s, Store (imageData s) (sceneInfo s) (loading s) (error s)
                 (sceneLoopEnabled s) (isNavigating s)
                 (console s ++ [Log message])).

Definition consoleError (message err : string) : async unit :=
  modify (λ s, Store (imageData s) (sceneInfo s) (loading s) (error s)
                 (sceneLoopEnabled s) (isNavigating s)
                 (console s ++ [Error message err])).

Definition read {A} (field : store → A) : async A :=
  Read (λ s, Return (field s)).

(** [import.meta.env]. *)
Record env := Env {
  DEV : bool;
  VITE_SCENE_PATH : option string;
  VITE_SCENE_NAME : option string
}.

(** [value || fallback] on a string that may be undefined. *)
Definition orElse (value : option string) (fallback : string) : string :=
  match value with
  | Some v => if bool_decide (v = "") then fallback else v
  | None => fallback
  end.

Definition loadInitialScene (e : env) : async unit :=
  tryFinally
    (tryCatch
       (setLoading true ;;
        setError None ;;
        scenePath ←
          (if DEV e then
             Return (orElse (VITE_SCENE_PATH e) "./test-scenes/my-photos")
           else
             appData ← await AppDataDir;
             let sceneName := orElse (VITE_SCENE_NAME e) "my-photos" in
             await (Join appData "scenes" sceneName));
        await (LoadSceneCollection scenePath) ;;
        info ← await GetSceneInfo;
        setSceneInfo info ;;
        data ← await (GetImage None 0);
        setImageData data)
       (λ err,
          setError (Some (String.append "Failed to load scene: " err)) ;;
          consoleError "" err))
    (setLoading false).

Definition handleNextPage : async unit :=
  consoleLog "=== handleNextPage called ===" ;;
  navigating ← read isNavigating;
  if navigating : bool then
    consoleLog "Navigation already in progress, ignoring"
  else
    setIsNavigating true ;;
    tryFinally
      (tryCatch
         (consoleLog "Invoking next_page command..." ;;
          data ← await NextPage;
          consoleLog "next_page response:" ;;
          setImageData data ;;
          consoleLog "Getting scene info..." ;;
          info ← await GetSceneInfo;
          consoleLog "Scene info:" ;;
          setSceneInfo info ;;
          consoleLog "=== handleNextPage completed ===")
         (λ err, consoleError "Failed to navigate to next page:" err))
      (setIsNavigating false).

Definition handlePrevPage : async unit :=
  consoleLog "=== handlePrevPage called ===" ;;
  navigating ← read isNavigating;
  if navigating : bool then
    consoleLog "Navigation already in progress, ignoring"
  else
    setIsNavigating true ;;
    tryFinally
      (tryCatch
         (consoleLog "Invoking prev_page command..." ;;
          data ← await PrevPage;
          consoleLog "prev_page response:" ;;
          setImageData data ;;
          consoleLog "Getting scene info..." ;;
          info ← await GetSceneInfo;
          consoleLog "Scene info:" ;;
          setSceneInfo info ;;
          consoleLog "=== handlePrevPage completed ===")
         (λ err, consoleError "Failed to navigate to previous page:" err))
      (setIsNavigating false).

Definition handleNextScene : async unit :=
  tryCatch
    (info ← await NextScene;
     setSceneInfo info ;;
     data ← await (GetImage None 0);
     setImageData data)
    (λ err, consoleError "Failed to navigate to next scene:" err).

Definition handlePrevScene : async unit :=
  tryCatch
    (info ← await PrevScene;
     setSceneInfo info ;;
     data ← await (GetImage None 0);
     setImageData data)
    (λ err, consoleError "Failed to navigate to previous scene:" err).

Definition handleSceneLoopToggle : async unit :=
  current ← read sceneLoopEnabled;
  let newState := negb current in
  setSceneLoopEnabled newState ;;
  tryCatch
    (await (SetSceneLoopEnabled newState))
    (λ err,
       consoleError "Failed to set scene loop state:" err ;;
       setSceneLoopEnabled (negb newState)).

Definition loadSceneLoopState : async unit :=
  tryCatch
    (enabled ← await GetSceneLoopEnabled;
     setSceneLoopEnabled enabled)
    (λ err, consoleError "Failed to load scene loop state:" err).

Inductive handler :=
| LoadInitialScene
| HandleNextPage
| HandlePrevPage
| HandleNextScene
| HandlePrevScene
| HandleSceneLoopToggle
| LoadSceneLoopState.

#[global] Instance handler_eq_dec : EqDecision handler.
Proof. solve_decision. Defined.

Definition body (e : env) (h : handler) : async unit :=
  match h with
  | LoadInitialScene => loadInitialScene e
  | HandleNextPage => handleNextPage
  | HandlePrevPage => handlePrevPage
  | HandleNextScene => handleNextScene
  | HandlePrevScene => handlePrevScene
  | HandleSceneLoopToggle => handleSceneLoopToggle
  | LoadSceneLoopState => loadSceneLoopState
  end.

(** The page navigations, which share the [isNavigating] guard, and the
    navigations as a whole. *)
Definition isPageNavigation (h : handler) : bool :=
  match h with
  | HandleNextPage | HandlePrevPage => true
  | _ => false
  end.

Definition isNavigation (h : handler) : bool :=
  match h with
  | HandleNextPage | HandlePrevPage | HandleNextScene | HandlePrevScene =>
    true
  | _ => false
  end.

(** Runs a handler up to its next [await] or its end. *)
Fixpoint advance {A} (t : async A) (s : store) : store * async A :=
  match t with
  | Read k => advance (k s) s
  | Write f k => advance k (f s)
  | _ => (s, t)
  end.

(** *** One handler, for given answers of the backend *)

(** The backend as seen from the hook: how the [n]-th awaited command
    settles. *)
Definition backend : Type := nat → ∀ c : command, settled c.

Inductive outcome :=
| Fulfilled
| Rejected (err : string)
| Suspended.

(** Whether a promise was fulfilled. *)
Definition fulfilled {c : command} (r : settled c) : bool :=
  match r with
  | inl _ => true
  | inr _ => false
  end.

(** Runs a handler to its end, for at most [fuel] awaits: the final
    store, the commands awaited with whether each was fulfilled, and how
    the promise of the handler settles. *)
Fixpoint run (fuel : nat) (answers : backend) (n : nat) (t : async unit)
    (s : store) : store * list (command * bool) * outcome :=
  match advance t s with
  | (s', Await c k) =>
    match fuel with
    | O => (s', [], Suspended)
    | S fuel =>
      let r := answers n c in
      let '(s'', calls, o) := run fuel answers (S n) (k r) s' in
      (s'', (c, fulfilled r) :: calls, o)
    end
  | (s', Throw err) => (s', [], Rejected err)
  | (s', _) => (s', [], Fulfilled)
  end.

(** *** The hook with its handlers in flight *)

Record machine := Machine {
  ui : store;
  (** the suspended handlers, each at an [Await] *)
  inflight : list (handler * async unit);
  (** the commands sent to the backend so far *)
  invoked : list command;
  (** errors no handler caught *)
  unhandled : list string
}.

(** Where a handler is after [advance]: suspended at an [await], ended
    with an error nobody caught, or ended. *)
Definition place (h : handler) (t : async unit) (s : store) (m : machine)
  : machine :=
  match t with
  | Await c _ =>
    Machine s (inflight m ++ [(h, t)]) (invoked m ++ [c]) (unhandled m)
  | Throw err => Machine s (inflight m) (invoked m) (unhandled m ++ [err])
  | _ => Machine s (inflight m) (invoked m) (unhandled m)
  end.

(** A handler is called. *)
Definition call (e : env) (h : handler) (m : machine) : machine :=
  let '(s, t) := advance (body e h) (ui m) in
  place h t s m.

(** The promise the [i]-th suspended handler waits for settles, and the
    handler goes on. *)
Definition settle (i : nat) (answer : ∀ c : command, settled c)
    (m : machine) : option machine :=
  match inflight m !! i with
  | Some (h, Await c k) =>
    let '(s, t) := advance (k (answer c)) (ui m) in
    Some (place h t s
            (Machine (ui m) (delete i (inflight m)) (invoked m)
               (unhandled m)))
  | _ => None
  end.

Definition initialStore : store := Store None None false None false false [].

(** Mount runs the two loading effects. *)
Definition mount (e : env) : machine :=
  call e LoadSceneLoopState
    (call e LoadInitialScene (Machine initialStore [] [] [])).

Inductive event :=
| Call (h : handler)
| Settle (i : nat) (answer : ∀ c : command, settled c).

Definition step (e : env) (ev : event) (m : machine) : option machine :=
  match ev with
  | Call LoadInitialScene | Call LoadSceneLoopState => None
  | Call h => Some (call e h m)
  | Settle i answer => settle i answer m
  end.

Inductive reachable (e : env) : machine → Prop :=
| reachable_mount : reachable e (mount e)
| reachable_step ev m m' :
    reachable e m → step e ev m = Some m' → reachable e m'.

(** The page navigations in flight. *)
Definition pageNavigations (m : machine) : list (handler * async unit) :=
  filter (λ p, isPageNavigation p.1 = true) (inflight m).

(** *** The guard of the page navigations *)

(** A handler that never assigns [isNavigating]. *)
Inductive keeps {A} : async A → Prop :=
| keeps_return a : keeps (Return a)
| keeps_throw err : keeps (Throw err)
| keeps_read k : (∀ s, keeps (k s)) → keeps (Read k)
| keeps_write f k :
    (∀ s, isNavigating (f s) = isNavigating s) → keeps k →
    keeps (Write f k)
| keeps_await c k : (∀ r, keeps (k r)) → keeps (Await c k).

Definition finished {A} (t : async A) : Prop :=
  match t with
  | Return _ | Throw _ => True
  | _ => False
  end.

(** A handler that holds the guard: it leaves [isNavigating] alone until
    its last step, which resets it. *)
Inductive releasing {A} : async A → Prop :=
| releasing_reset f k :
    (∀ s, isNavigating (f s) = false) → finished k → releasing (Write f k)
| releasing_write f k :
    (∀ s, isNavigating (f s) = isNavigating s) → releasing k →
    releasing (Write f k)
| releasing_read k : (∀ s, releasing (k s)) → releasing (Read k)
| releasing_await c k : (∀ r, releasing (k r)) → releasing (Await c k).

(** What is in flight: handlers suspended at an [await]; a page
    navigation holds the guard, the other handlers never touch it. *)
Definition suspended (p : handler * async unit) : Prop :=
  ∃ c k, p.2 = Await c k ∧
    ∀ r, if isPageNavigation p.1 then releasing (k r) else keeps (k r).

Definition guardInv (m : machine) : Prop :=
  Forall suspended (inflight m) ∧
  length (pageNavigations m) = if isNavigating (ui m) then 1%nat else 0%nat.

(** The reading of the error statement in which any failure during a
    navigation leaves the four state cells as they were. *)
Definition navigationFailureLeavesState (e : env) : Prop :=
  ∀ h answers s s' calls o,
    isNavigation h = true →
    run 5 answers 0 (body e h) s = (s', calls, o) →
    (∃ c, (c, false) ∈ calls) →
    imageData s' = imageData s ∧ sceneInfo s' = sceneInfo s ∧
    loading s' = loading s ∧ error s' = error s.

(** A backend that answers [next_page] and rejects everything else. *)
Definition page1 : ImageData := mkImageData None None 1 0 "b.png" false.
Definition sceneInfoFails : backend :=
  λ n c, match c return settled c with
         | NextPage => inl page1
         | _ => inr "offline"
         end.


End ImageContent.

(** ** The component that uses the hooks *)

Module App.

(** The hooks of [App] that own timers or listeners.  [useKeyboard] has
    no state but its [keydown] listener. *)
Record state := State {
  displayLevel : DisplayLevel.state;
  autoPlay : AutoPlay.state;
  notification : Notification.state;
  keydownListener : bool
}.

Definition mount : state :=
  State DisplayLevel.init AutoPlay.init Notification.init true.

(** The handler of the space key:
    [autoPlay.togglePlay(); showNotification(autoPlay.isPlaying ?
    "Auto-play OFF" : "Auto-play ON")], with [isPlaying] as rendered
    before the toggle.  [now] is the clock in milliseconds. *)
Definition pressSpace (now : Z) (a : state) : state :=
  let message :=
    if AutoPlay.isPlaying (autoPlay a)
    then "Auto-play OFF"%string else "Auto-play ON"%string in
  State (displayLevel a)
    (AutoPlay.togglePlay (Qc_of_Z now) (autoPlay a))
    (Notification.showNotification message None now (notification a))
    (keydownListener a).

(** Unmount runs the cleanups the effects returned: the one of
    [useDisplayLevel], the one of [useAutoPlay] and the one of
    [useKeyboard].  [useNotification] has no effect, so nothing of it
    runs. *)
Definition unmount (a : state) : state :=
  State (DisplayLevel.cleanup (displayLevel a))
    (AutoPlay.unmount (autoPlay a))
    (notification a)
    false.

(** Nothing of the component is left in the runtime. *)
Definition tornDown (a : state) : Prop :=
  DisplayLevel.timers (displayLevel a) = ∅ ∧
  DisplayLevel.listening (displayLevel a) = false ∧
  AutoPlay.intervals (autoPlay a) = ∅ ∧
  Notification.timers (notification a) = ∅ ∧
  keydownListener a = false.

End App.

(** ** What stays in flight in useImageContent *)

Module ContentMachine.
Import ImageContent.
Local Open Scope string_scope.

(** A handler none of whose paths ends in a throw. *)
Inductive catches {A} : async A → Prop :=
| catches_return a : catches (Return a)
| catches_read k : (∀ s, catches (k s)) → catches (Read k)
| catches_write f k : catches k → catches (Write f k)
| catches_await c k : (∀ r, catches (k r)) → catches (Await c k).

(** A handler that never assigns [error] or [loading]. *)
Inductive quiet {A} : async A → Prop :=
| quiet_return a : quiet (Return a)
| quiet_throw err : quiet (Throw err)
| quiet_read k : (∀ s, quiet (k s)) → quiet (Read k)
| quiet_write f k :
    (∀ s, error (f s) = error s ∧ loading (f s) = loading s) → quiet k →
    quiet (Write f k)
| quiet_await c k : (∀ r, quiet (k r)) → quiet (Await c k).

(** What is in flight catches its errors, and all but the initial load
    leave [error] and [loading] alone. *)
Definition handled (p : handler * async unit) : Prop :=
  ∃ c k, p.2 = Await c k ∧
    ∀ r, catches (k r) ∧ (p.1 ≠ LoadInitialScene → quiet (k r)).

Definition machineInv (m : machine) : Prop :=
  Forall handled (inflight m) ∧ unhandled m = [].

(** A backend that answers every command, and one that rejects every
    command. *)
Definition scene1 : SceneInfo := mkSceneInfo "my-photos" 0 12 1.

Definition online : backend :=
  λ n c, match c return settled c with
         | AppDataDir => inl "/data"
         | Join appData dir sceneName => inl sceneName
         | LoadSceneCollection _ | SetSceneLoopEnabled _ => inl tt
         | GetSceneInfo | NextScene | PrevScene => inl scene1
         | GetImage _ _ | NextPage | PrevPage => inl page1
         | GetSceneLoopEnabled => inl true
         end.

Definition offline : backend := λ n c, inr "offline".

End ContentMachine.

(** ** The file name shown by ImageInfo *)

Module FileName.
Import Stdlib.Strings.Ascii Stdlib.Strings.String.
Local Open Scope string_scope.

(** The characters of the class [[/\\]]: the slash and the backslash
    (character 92). *)
Definition isSeparator (c : ascii) : bool :=
  bool_decide (c = "/"%char) || bool_decide (c = "092"%char).

Arguments isSeparator : simpl never.

(** [path.split(/[/\\]/)]: the pieces between separators, empty pieces
    included; never an empty list.  Both separators are ASCII, so the
    pieces are the same whether the path is read as UTF-16 units or as
    UTF-8 bytes. *)
Fixpoint split (path : string) : list string :=
  match path with
  | EmptyString => [EmptyString]
  | String c rest =>
    if isSeparator c then EmptyString :: split rest
    else match split rest with
         | piece :: pieces => String c piece :: pieces
         | [] => [String c EmptyString]
         end
  end.

(** [pieces.pop()]: the last piece, [undefined] for an empty array. *)
Definition pop (pieces : list string) : option string := last pieces.

(** [imageData.image_path.split(/[/\\]/).pop()]. *)
Definition fileName (path : string) : option string := pop (split path).

(** No character of the string is a separator. *)
Fixpoint plain (s : string) : bool :=
  match s with
  | EmptyString => true
  | String c rest => negb (isSeparator c) && plain rest
  end.

End FileName.

(** ** What App renders *)

Module View.

(** A string in a condition: [null] and the empty string count as
    false. *)
Definition truthy (s : option string) : bool :=
  match s with
  | Some s => negb (bool_decide (s = EmptyString))
  | None => false
  end.

(** [loading && ...], [error && ...] and
    [imageData && !loading && !error && ...] of [App]. *)
Definition showsLoading (s : ImageContent.store) : bool :=
  ImageContent.loading s.

Definition showsError (s : ImageContent.store) : bool :=
  truthy (ImageContent.error s).

Definition showsViewer (s : ImageContent.store) : bool :=
  bool_decide (is_Some (ImageContent.imageData s)) &&
  negb (ImageContent.loading s) && negb (truthy (ImageContent.error s)).

End View.

(** ** The keys of App *)

Module Viewer.
Import ImageContent.
Local Open Scope string_scope.

(** The content hook, the hooks with timers, and what the key handlers
    of [App] and [useKeyboard] wrote to the console. *)
Record state := State {
  content : machine;
  hooks : App.state;
  console : list string
}.

Section handlers.
Variable e : env.

Definition log (message : string) (v : state) : state :=
  State (content v) (hooks v) (console v ++ [message]).

(** A call of a handler of [useImageContent]. *)
Definition navigate (h : handler) (v : state) : state :=
  State (call e h (content v)) (hooks v) (console v).

(** [autoPlay.pause(duration)]. *)
Definition pauseAutoPlay (duration now : Z) (v : state) : state :=
  State (content v)
    (App.State (App.displayLevel (hooks v))
       (AutoPlay.pause (Qc_of_Z duration) (Qc_of_Z now)
          (App.autoPlay (hooks v)))
       (App.notification (hooks v)) (App.keydownListener (hooks v)))
    (console v).

(** A handler of the key map: the new state and whether it called
    [e.preventDefault()]. *)
Definition keyHandler : Type := Z → state → state * bool.

Definition onArrowPrev : keyHandler := λ now v,
  (navigate HandlePrevPage
     (pauseAutoPlay 1000 now
        (log "Triggering prev page from keyboard" v)), false).

Definition onArrowNext : keyHandler := λ now v,
  (navigate HandleNextPage
     (pauseAutoPlay 1000 now
        (log "Triggering next page from keyboard" v)), false).

Definition onSpace : keyHandler := λ now v,
  let v := log "Toggling autoplay" v in
  (State (content v) (App.pressSpace now (hooks v)) (console v), true).

Definition onEscape : keyHandler := λ now v, (v, false).

Definition keyMap : gmap string keyHandler :=
  <["ArrowLeft" := onArrowPrev]>
    (<["ArrowUp" := onArrowPrev]>
       (<["ArrowRight" := onArrowNext]>
          (<["ArrowDown" := onArrowNext]>
             (<[" " := onSpace]>
                (<["Escape" := onEscape]> ∅))))).

(** [handleKeyDown] of [useKeyboard]: the handler of the key, if the map
    has one.  [e.key] is a key value of a keyboard event, a key name or
    the character typed; none of them names a property that the object
    literal inherits, so [keyMap[e.key]] is a lookup among the six
    entries. *)
Definition handleKeyDown (keyMap : gmap string keyHandler) (key : string)
    (now : Z) (v : state) : state * bool :=
  let v := log (String.append "Key pressed: " key) v in
  match keyMap !! key with
  | Some handler => handler now v
  | None => (v, false)
  end.

(** A [keydown] event reaches the handler while the listener is
    registered. *)
Definition keyDown (key : string) (now : Z) (v : state)
  : option (state * bool) :=
  if App.keydownListener (hooks v)
  then Some (handleKeyDown keyMap key now v)
  else None.

(** A tick of the auto-play interval with [onNext = handleNextPage] and
    [onPrev = handlePrevPage]. *)
Definition autoPlayTick (now : Qc) (h : positive) (v : state)
  : option state :=
  match AutoPlay.tick now h (App.autoPlay (hooks v)) with
  | Some (autoPlay, out) =>
    let hooks :=
      App.State (App.displayLevel (hooks v)) autoPlay
        (App.notification (hooks v)) (App.keydownListener (hooks v)) in
    Some match out with
         | Some AutoPlay.OnNext =>
           navigate HandleNextPage (State (content v) hooks (console v))
         | Some AutoPlay.OnPrev =>
           navigate HandlePrevPage (State (content v) hooks (console v))
         | None =>
           State (content v) hooks
             (console v ++ ["Auto-play paused, skipping navigation"])
         end
  | None => None
  end.

End handlers.

End Viewer.

(** * Properties *)

(** ** The display level hook *)

Module DisplayLevelFacts.
Import DisplayLevel.

Ltac unfold_wf :=
  unfold wf, fresh, tracked, idleAt, deadlineAt, noDeadline, canceled in *.

(** Looks a handle up in a table built by inserts and deletes. *)
Ltac map_cases :=
  repeat match goal with
  | H : context [lookup _ (insert _ _ _)] |- _ => rewrite lookup_insert in H
  | |- context [lookup _ (insert _ _ _)] => rewrite lookup_insert
  | H : context [lookup _ (delete _ _)] |- _ => rewrite lookup_delete in H
  | |- context [lookup _ (delete _ _)] => rewrite lookup_delete
  | H : context [lookup _ ∅] |- _ => rewrite lookup_empty in H
  | |- context [lookup _ ∅] => rewrite lookup_empty
  end;
  repeat case_decide; simplify_eq; cbn [due target level timestamp] in *.

Ltac use_tracked :=
  repeat match goal with
  | Ht : ∀ h t, ?m !! h = Some t → _, Hl : ?m !! _ = Some _ |- _ =>
    pose proof (Ht _ _ Hl) as (? & [? ?] & [? ?] & [? ?]); clear Hl
  end.

Ltac use_fresh :=
  repeat match goal with
  | Hf : ∀ h t, ?m !! h = Some t → (_ < _)%positive,
    Hl : ?m !! ?x = Some _ |- _ =>
    lazymatch goal with
    | _ : (x < _)%positive |- _ => fail
    | _ => pose proof (Hf x _ Hl)
    end
  | Hf : ∀ h, Some ?x = Some h → _ |- _ => specialize (Hf x eq_refl)
  end.

(** Splits a state into its fields and the handler into its branches. *)
Ltac hook_cases st :=
  destruct st as [lv ref mi l2 l3 ps [sl sts] tm nx ls];
  destruct mi, l2, l3; unfold_wf; hook_eval;
  repeat match goal with
  | |- context [?x =? 0] => destruct (Z.eqb_spec x 0)
  | |- context [?x <? ?y] => destruct (Z.ltb_spec x y)
  end;
  cbn [level timestamp] in *.

Ltac hook_finish :=
  repeat split; intros; simplify_eq; try lia;
  try (eexists; split; [reflexivity|]; split; intros);
  map_cases; use_fresh; try lia; try done;
  try (use_tracked; simplify_eq/=; use_fresh; try lia; try done;
       try (intuition (simplify_eq; lia))).

Example run_reveal :
  displayLevel <$>
    run 1000 [(1000, PointerMove); (1200, Timeout 1); (1500, Timeout 2)] init
  = Some 3.
Proof. vm_compute. reflexivity. Qed.

Example run_idle :
  displayLevel <$>
    run 1000 [(1000, PointerMove); (1200, Timeout 1); (1500, Timeout 2);
              (4000, Timeout 3)] init
  = Some 0.
Proof. vm_compute. reflexivity. Qed.

Example run_click_then_scene :
  displayLevel <$>
    run 1000 [(1000, SceneIndex (Some 1)); (2000, PointerDown);
              (2100, SceneIndex (Some 2))] init
  = Some 1.
Proof. vm_compute. reflexivity. Qed.

Example run_idle_not_before_reveal :
  run 1000 [(1000, PointerMove); (4000, Timeout 3)] init = None.
Proof. vm_compute. reflexivity. Qed.

(** A click right after a mouse move: when the move was not rendered yet
    the click reads level 0 and jumps to 3, otherwise it leaves level
    1. *)
Example run_click_before_render :
  displayLevel <$> run 1000 [(1000, PointerMove); (1000, PointerDown)] init
  = Some 3.
Proof. vm_compute. reflexivity. Qed.

Example run_click_after_render :
  displayLevel <$>
    run 1000 [(1000, PointerMove); (1000, Render); (1000, PointerDown)] init
  = Some 1.
Proof. vm_compute. reflexivity. Qed.

Lemma wf_init : wf init.
Proof. unfold_wf. cbn. repeat split; intros; map_cases; done. Qed.

Lemma handleMouseMove_wf now st : wf st → wf (handleMouseMove now st).
Proof. intros [(Hf & Hi & H2 & H3) Ht]. hook_cases st; hook_finish. Qed.

Lemma handleMouseDown_wf now st : wf st → wf (handleMouseDown now st).
Proof. intros [(Hf & Hi & H2 & H3) Ht]. hook_cases st; hook_finish. Qed.

Lemma sceneChangeEffect_wf i now st : wf st → wf (sceneChangeEffect i now st).
Proof.
  intros [(Hf & Hi & H2 & H3) Ht]. destruct i as [idx|]; [|done].
  hook_cases st; destruct ps as [prev|]; try case_bool_decide; hook_finish.
Qed.

Lemma syncRef_wf st : wf st → wf (syncRef st).
Proof. intros [(Hf & Hi & H2 & H3) Ht]. hook_cases st; hook_finish. Qed.

Lemma cleanup_wf st : wf st → wf (cleanup st).
Proof. intros [(Hf & Hi & H2 & H3) Ht]. hook_cases st; hook_finish. Qed.

Lemma fireTimeout_wf now h st st' :
  wf st → fireTimeout now h st = Some st' → wf st'.
Proof.
  intros [(Hf & Hi & H2 & H3) Ht] Hfire. unfold fireTimeout in Hfire.
  destruct (timers st !! h) as [t|] eqn:Hh; [|done].
  case_bool_decide; simplify_eq.
  hook_cases st; hook_finish.
Qed.





(** C1. The scene change effect with a previous scene index [prev] and a
    new one [newId ≠ prev]: the level it looks at is the one recorded by
    the last mouse down when the effect runs less than 500 ms after it,
    and the current level otherwise; when that level is 0 the level
    becomes 1 and the idle deadline is canceled and set again to 3000 ms
    from now, otherwise level and timers stay as they are; the previous
    scene index becomes [newId] in every case.  In particular a scene
    change less than 500 ms after a mouse down at level 0 ends at
    level 1 although the mouse down has raised the level to 3. *)
Theorem sceneChangeEffect_spec :
  (∀ now newId prev st,
     wf st → previousSceneIndex st = Some prev → newId ≠ prev →
     let st' := sceneChangeEffect (Some newId) now st in
     (now - timestamp (lastMouseDownLevel st) < 500 →
        levelToCheck now st = level (lastMouseDownLevel st)) ∧
     (500 ≤ now - timestamp (lastMouseDownLevel st) →
        levelToCheck now st = displayLevelRef st) ∧
     (levelToCheck now st = 0 →
        displayLevel st' = 1 ∧
        canceled (mouseIdleTimer st) st' ∧ idleAt (now + 3000) st') ∧
     (levelToCheck now st ≠ 0 →
        displayLevel st' = displayLevel st ∧ timers st' = timers st ∧
        mouseIdleTimer st' = mouseIdleTimer st) ∧
     previousSceneIndex st' = Some newId) ∧
  (∀ now newId st,
     previousSceneIndex (sceneChangeEffect (Some newId) now st)
     = Some newId) ∧
  (∀ down now newId prev st,
     displayLevelRef st = 0 →
     previousSceneIndex st = Some prev → newId ≠ prev →
     now - down < 500 →
     let clicked := syncRef (handleMouseDown down st) in
     displayLevel clicked = 3 ∧ displayLevelRef clicked = 3 ∧
     displayLevel (sceneChangeEffect (Some newId) now clicked) = 1).
Proof.
  split; [|split].
  - intros now newId prev st [(Hf & Hi & H2 & H3) Ht] Hprev Hne.
    assert (levelToCheck now st = 0 ∨ levelToCheck now st ≠ 0) as Hc by lia.
    revert Hc. hook_cases st; simplify_eq; rewrite bool_decide_true by done.
    all: repeat match goal with
         | |- context [?x <? ?y] => destruct (Z.ltb_spec x y)
         | |- context [?x =? 0] => destruct (Z.eqb_spec x 0)
         end; intros Hc; hook_finish.
  - intros now newId st. hook_cases st; destruct ps as [prev|];
      try case_bool_decide; done.
  - intros down now newId prev st Href Hprev Hne Hlt.
    hook_cases st; simplify_eq; try lia.
    all: rewrite bool_decide_true by done.
    all: destruct (Z.ltb_spec (now - down) 500); try lia; done.
Qed.

(** *** The pending deadlines after each handler *)

Ltac pending_finish :=
  repeat split; intros; simplify_eq; try done;
  map_cases; use_fresh; try lia; try done;
  try (use_tracked; intuition (simplify_eq; lia));
  repeat match goal with
  | |- context [?m !! ?x] => is_var m; destruct (m !! x) eqn:?
  end; try done; use_tracked; intuition (simplify_eq; lia).

Lemma handleMouseMove_pending now st :
  wf st →
  let st' := handleMouseMove now st in
  lastMouseDownLevel st' = lastMouseDownLevel st ∧
  listening st' = listening st ∧
  pendingOf mouseIdleTimer st' = Some (Timer (now + 3000) 0) ∧
  (displayLevelRef st = 0 →
     displayLevel st' = 1 ∧
     pendingOf level2Timer st' = Some (Timer (now + 200) 2) ∧
     pendingOf level3Timer st' = Some (Timer (now + 500) 3)) ∧
  (displayLevelRef st ≠ 0 →
     displayLevel st' = displayLevel st ∧
     pendingOf level2Timer st' = pendingOf level2Timer st ∧
     pendingOf level3Timer st' = pendingOf level3Timer st).
Proof.
  intros [(Hf & Hi & H2 & H3) Ht]. unfold pendingOf.
  hook_cases st; pending_finish.
Qed.

Lemma handleMouseDown_pending now st :
  wf st →
  let st' := handleMouseDown now st in
  lastMouseDownLevel st' = Snapshot (displayLevelRef st) now ∧
  listening st' = listening st ∧
  pendingOf mouseIdleTimer st' = Some (Timer (now + 3000) 0) ∧
  (displayLevelRef st = 0 →
     displayLevel st' = 3 ∧
     pendingOf level2Timer st' = None ∧
     pendingOf level3Timer st' = None) ∧
  (displayLevelRef st ≠ 0 →
     displayLevel st' = displayLevel st ∧
     pendingOf level2Timer st' = pendingOf level2Timer st ∧
     pendingOf level3Timer st' = pendingOf level3Timer st).
Proof.
  intros [(Hf & Hi & H2 & H3) Ht]. unfold pendingOf.
  hook_cases st; pending_finish.
Qed.

Lemma sceneChangeEffect_pending i now st :
  wf st →
  let st' := sceneChangeEffect i now st in
  lastMouseDownLevel st' = lastMouseDownLevel st ∧
  listening st' = listening st ∧
  pendingOf level2Timer st' = pendingOf level2Timer st ∧
  pendingOf level3Timer st' = pendingOf level3Timer st ∧
  ((displayLevel st' = displayLevel st ∧
    pendingOf mouseIdleTimer st' = pendingOf mouseIdleTimer st) ∨
   (levelToCheck now st = 0 ∧ displayLevel st' = 1 ∧
    pendingOf mouseIdleTimer st' = Some (Timer (now + 3000) 0))).
Proof.
  intros [(Hf & Hi & H2 & H3) Ht]. unfold pendingOf.
  destruct i as [idx|]; [|cbn; tauto].
  assert (levelToCheck now st = 0 ∨ levelToCheck now st ≠ 0) as Hc by lia.
  revert Hc.
  hook_cases st; destruct ps as [prev|]; try case_bool_decide; intros Hc.
  all: repeat match goal with
       | |- context [?x <? ?y] => destruct (Z.ltb_spec x y)
       | |- context [?x =? 0] => destruct (Z.eqb_spec x 0)
       end.
  all: try (repeat split; first [done | by left]).
  all: repeat split; try done.
  all: try (right; repeat split; try done).
  all: try lia.
  all: pending_finish.
Qed.

Lemma fireTimeout_pending now h st st' :
  wf st → fireTimeout now h st = Some st' →
  ∃ t, timers st !! h = Some t ∧ due t ≤ now ∧
    map_Forall (λ h' t', precedes h t h' t') (timers st) ∧
    displayLevel st' = target t ∧
    lastMouseDownLevel st' = lastMouseDownLevel st ∧
    listening st' = listening st ∧
    ∀ ref, ref ∈ [mouseIdleTimer; level2Timer; level3Timer] →
      pendingOf ref st' =
      if bool_decide (ref st = Some h) then None else pendingOf ref st.
Proof.
  intros [(Hf & Hi & H2 & H3) Ht] Hfire. unfold fireTimeout in Hfire.
  destruct (timers st !! h) as [t|] eqn:Hh; [|done].
  case_bool_decide as Hen; simplify_eq. destruct Hen as [Hdue Hmin].
  exists t. repeat split; try done; try (by destruct st).
  intros ref Hin. unfold pendingOf.
  repeat (apply elem_of_cons in Hin as [->|Hin]);
    [| | |by apply elem_of_nil in Hin].
  all: destruct st as [lv r mi l2 l3 ps sn tm nx ls]; hook_eval.
  all: case_bool_decide; simplify_eq; [by rewrite lookup_delete_eq|].
  - destruct mi; [|done]. rewrite lookup_delete_ne; [done|congruence].
  - destruct l2; [|done]. rewrite lookup_delete_ne; [done|congruence].
  - destruct l3; [|done]. rewrite lookup_delete_ne; [done|congruence].
Qed.

Lemma cleanup_timers st :
  wf st →
  timers (cleanup st) = ∅ ∧ listening (cleanup st) = false ∧
  displayLevel (cleanup st) = displayLevel st ∧
  displayLevelRef (cleanup st) = displayLevelRef st ∧
  lastMouseDownLevel (cleanup st) = lastMouseDownLevel st.
Proof.
  intros [(Hf & Hi & H2 & H3) Ht].
  hook_cases st; repeat split; try done.
  all: apply map_eq; intros h; map_cases; try done.
  all: destruct (tm !! h) eqn:?; try done; use_tracked;
    intuition (simplify_eq; lia).
Qed.

(** *** Reachable states *)

Lemma pendingOf_Some ref st t :
  pendingOf ref st = Some t → ∃ h, ref st = Some h ∧ timers st !! h = Some t.
Proof. unfold pendingOf. destruct (ref st) as [h|]; [eauto|done]. Qed.

Lemma pendingOf_lookup ref st h t :
  ref st = Some h → timers st !! h = Some t → pendingOf ref st = Some t.
Proof. unfold pendingOf. by intros ->. Qed.

Lemma inv_init now : inv now init.
Proof. split; [apply wf_init|]. split; [cbn; lia|done]. Qed.

Lemma paced_later now now' st : paced now st → now ≤ now' → paced now' st.
Proof.
  unfold paced. intros Hp Hle.
  destruct (pendingOf level2Timer st), (pendingOf level3Timer st),
    (pendingOf mouseIdleTimer st); try done; intuition lia.
Qed.

Lemma syncRef_inv now now' st : inv now st → now ≤ now' → inv now' (syncRef st).
Proof.
  intros (Hwf & Hrg & Hph) Hle. split; [by apply syncRef_wf|].
  split; [done|]. change (listening (syncRef st)) with (listening st).
  destruct (listening st); [|done].
  change (paced now' st). by eapply paced_later.
Qed.

Lemma handleMouseMove_inv now now' st :
  inv now st → now ≤ now' → listening st = true →
  inv now' (handleMouseMove now' st) ∧
  transition PointerMove (displayLevel st)
    (displayLevel (handleMouseMove now' st)) ∧
  (displayLevel (handleMouseMove now' st) ≠ displayLevel st →
   displayLevelRef st = 0 ∧ displayLevel (handleMouseMove now' st) = 1).
Proof.
  intros (Hwf & Hrg & Hph) Hle Hls. rewrite Hls in Hph.
  pose proof (handleMouseMove_wf now' st Hwf) as Hwf'.
  destruct (handleMouseMove_pending now' st Hwf) as (Hsn & Hl & Hi & Hz & Hnz).
  set (st1 := handleMouseMove now' st) in *.
  rewrite Hls in Hl.
  destruct (decide (displayLevelRef st = 0)) as [Hz'|Hz'].
  - destruct (Hz Hz') as (Hlv & Hp2 & Hp3). rewrite Hlv.
    split; [|split; [constructor|done]].
    unfold inv. rewrite Hl, Hlv. split; [done|]. split; [lia|].
    unfold paced. rewrite Hi, Hp2, Hp3, Hlv. cbn. lia.
  - destruct (Hnz Hz') as (Hlv & Hp2 & Hp3). rewrite Hlv.
    split; [|split; [constructor|done]].
    unfold inv. rewrite Hl, Hlv. split; [done|]. split; [done|].
    unfold paced in *. rewrite Hi, Hp2, Hp3, Hlv.
    destruct (pendingOf level2Timer st), (pendingOf level3Timer st),
      (pendingOf mouseIdleTimer st); cbn; try done; intuition lia.
Qed.

Lemma handleMouseDown_inv now now' st :
  inv now st → now ≤ now' → listening st = true →
  inv now' (handleMouseDown now' st) ∧
  transition PointerDown (displayLevel st)
    (displayLevel (handleMouseDown now' st)) ∧
  (displayLevel (handleMouseDown now' st) ≠ displayLevel st →
   displayLevelRef st = 0 ∧ displayLevel (handleMouseDown now' st) = 3).
Proof.
  intros (Hwf & Hrg & Hph) Hle Hls. rewrite Hls in Hph.
  pose proof (handleMouseDown_wf now' st Hwf) as Hwf'.
  destruct (handleMouseDown_pending now' st Hwf) as (Hsn & Hl & Hi & Hz & Hnz).
  set (st1 := handleMouseDown now' st) in *.
  rewrite Hls in Hl.
  destruct (decide (displayLevelRef st = 0)) as [Hz'|Hz'].
  - destruct (Hz Hz') as (Hlv & Hp2 & Hp3). rewrite Hlv.
    split; [|split; [constructor|done]].
    unfold inv. rewrite Hl, Hlv. split; [done|]. split; [lia|].
    unfold paced. by rewrite Hi, Hp2, Hp3.
  - destruct (Hnz Hz') as (Hlv & Hp2 & Hp3). rewrite Hlv.
    split; [|split; [constructor|done]].
    unfold inv. rewrite Hl, Hlv. split; [done|]. split; [done|].
    unfold paced in *. rewrite Hi, Hp2, Hp3, Hlv.
    destruct (pendingOf level2Timer st), (pendingOf level3Timer st),
      (pendingOf mouseIdleTimer st); cbn; try done; intuition lia.
Qed.

(** The scene change effect runs after the copy of the level. *)
Lemma sceneChangeEffect_inv i now now' st :
  inv now st → now ≤ now' → listening st = true →
  let st1 := sceneChangeEffect i now' (syncRef st) in
  inv now' st1 ∧
  transition (SceneIndex i) (displayLevel st) (displayLevel st1) ∧
  (displayLevel st1 < displayLevel st → lowering now' (SceneIndex i) st st1).
Proof.
  intros Hinv Hle Hls st1.
  destruct (syncRef_inv now now' st Hinv Hle) as (Hwf & Hrg & Hph).
  change (listening (syncRef st)) with (listening st) in Hph.
  rewrite Hls in Hph. change (paced now' st) in Hph.
  pose proof (sceneChangeEffect_wf i now' _ Hwf) as Hwf'.
  destruct (sceneChangeEffect_pending i now' _ Hwf)
    as (Hsn & Hl & Hp2 & Hp3 & Hc).
  fold st1 in Hwf', Hsn, Hl, Hp2, Hp3, Hc.
  change (listening (syncRef st)) with (listening st) in Hl.
  change (displayLevel (syncRef st)) with (displayLevel st) in *.
  change (lastMouseDownLevel (syncRef st)) with (lastMouseDownLevel st) in Hsn.
  change (pendingOf level2Timer (syncRef st))
    with (pendingOf level2Timer st) in *.
  change (pendingOf level3Timer (syncRef st))
    with (pendingOf level3Timer st) in *.
  change (pendingOf mouseIdleTimer (syncRef st))
    with (pendingOf mouseIdleTimer st) in *.
  rewrite Hls in Hl.
  destruct Hc as [[Hlv Hi]|(Hc & Hlv & Hi)].
  - rewrite Hlv. split; [|split; [constructor|lia]].
    unfold inv. rewrite Hl, Hlv. split; [done|]. split; [done|].
    unfold paced in *. by rewrite Hi, Hp2, Hp3, Hlv.
  - rewrite Hlv. split; [|split; [constructor|]].
    + unfold inv. rewrite Hl, Hlv. split; [done|]. split; [lia|].
      unfold paced in *. rewrite Hi, Hp2, Hp3, Hlv.
      destruct (pendingOf level2Timer st), (pendingOf level3Timer st),
        (pendingOf mouseIdleTimer st); cbn; try done; intuition lia.
    + intros Hlow. right. right. destruct i as [idx|]; [|cbn in Hlv; lia].
      exists idx. split; [done|]. split; [done|].
      unfold levelToCheck in Hc.
      change (lastMouseDownLevel (syncRef st))
        with (lastMouseDownLevel st) in Hc.
      change (displayLevelRef (syncRef st)) with (displayLevel st) in Hc.
      destruct (Z.ltb_spec (now' - timestamp (lastMouseDownLevel st)) 500);
        [done|lia].
Qed.

Lemma fireTimeout_inv now now' h st st1 :
  inv now st → now ≤ now' → fireTimeout now' h st = Some st1 →
  inv now' st1 ∧
  transition (Timeout h) (displayLevel st) (displayLevel st1) ∧
  (displayLevel st1 < displayLevel st →
   lowering now' (Timeout h) st st1).
Proof.
  intros (Hwf & Hrg & Hph) Hle Hfire.
  pose proof (fireTimeout_wf _ _ _ _ Hwf Hfire) as Hwf'.
  destruct (fireTimeout_pending _ _ _ _ Hwf Hfire)
    as (t & Hh & Hdue & Hmin & Hlv & Hsn & Hl & Hp).
  destruct (listening st) eqn:Hls; [|by rewrite Hph in Hh].
  pose proof (Hp mouseIdleTimer ltac:(apply elem_of_cons; by left)) as Hpi.
  pose proof (Hp level2Timer
                ltac:(apply elem_of_cons; right; apply elem_of_cons; by left))
    as Hp2.
  pose proof (Hp level3Timer
                ltac:(do 2 (apply elem_of_cons; right);
                      apply elem_of_cons; by left))
    as Hp3.
  clear Hp. destruct Hwf as [_ Ht].
  destruct (Ht _ _ Hh) as (Htar & [Hi0 Hi1] & [H20 H21] & [H30 H31]).
  assert (∀ ref t', pendingOf ref st = Some t' → due t ≤ due t') as Hfirst.
  { intros ref t' (h' & _ & Hh')%pendingOf_Some.
    pose proof (map_Forall_lookup_1 _ _ _ _ Hmin Hh') as [?|[? _]]; lia. }
  unfold inv. rewrite Hl. unfold paced in *.
  destruct Htar as [H0|[H2|H3]].
  - (* the idle deadline *)
    rewrite bool_decide_true in Hpi by auto.
    rewrite bool_decide_false in Hp2 by (intros ?%H20; lia).
    rewrite bool_decide_false in Hp3 by (intros ?%H30; lia).
    pose proof (pendingOf_lookup mouseIdleTimer _ _ _ (Hi1 H0) Hh) as Ei.
    rewrite Ei in Hph.
    destruct (pendingOf level2Timer st) as [t2|] eqn:E2,
      (pendingOf level3Timer st) as [t3|] eqn:E3; try done.
    + pose proof (Hfirst _ _ E2). lia.
    + pose proof (Hfirst _ _ E3). lia.
    + rewrite Hpi, Hp2, Hp3, Hlv, H0.
      split; [split; [done|]; split; [lia|done]|]. split; [constructor|].
      intros _. left. exists h, t. repeat split; try done. congruence.
  - (* the deadline towards level 2 *)
    rewrite bool_decide_false in Hpi by (intros ?%Hi0; lia).
    rewrite bool_decide_true in Hp2 by auto.
    rewrite bool_decide_false in Hp3 by (intros ?%H30; lia).
    pose proof (pendingOf_lookup level2Timer _ _ _ (H21 H2) Hh) as E2.
    rewrite E2 in Hph.
    destruct (pendingOf level3Timer st) as [t3|] eqn:E3,
      (pendingOf mouseIdleTimer st) as [ti|] eqn:Ei; try done.
    destruct Hph as (Hl1 & Hd & Hb & Hd').
    rewrite Hpi, Hp2, Hp3, Hlv, H2, Hl1.
    split; [|split; [constructor|lia]].
    split; [done|]. split; [lia|]. split; [by right|lia].
  - (* the deadline towards level 3 *)
    rewrite bool_decide_false in Hpi by (intros ?%Hi0; lia).
    rewrite bool_decide_false in Hp2 by (intros ?%H20; lia).
    rewrite bool_decide_true in Hp3 by auto.
    pose proof (pendingOf_lookup level3Timer _ _ _ (H31 H3) Hh) as E3.
    rewrite E3 in Hph.
    destruct (pendingOf level2Timer st) as [t2|] eqn:E2,
      (pendingOf mouseIdleTimer st) as [ti|] eqn:Ei; try done.
    + pose proof (Hfirst _ _ E2). lia.
    + destruct Hph as (Hl12 & Hb & Hd').
      rewrite Hpi, Hp2, Hp3, Hlv, H3.
      split; [split; [done|]; split; [lia|done]|].
      split; [by constructor|lia].
Qed.

Lemma cleanup_inv now now' st :
  inv now st →
  inv now' (cleanup st) ∧ displayLevel (cleanup st) = displayLevel st.
Proof.
  intros (Hwf & Hrg & Hph).
  destruct (cleanup_timers st Hwf) as (Htm & Hl & Hlv & Hr & Hsn).
  split; [|done]. unfold inv. rewrite Hl, Hlv.
  split; [by apply cleanup_wf|done].
Qed.

(** Every event keeps the invariant and changes the level along one of
    the transitions; when it lowers the level it is the idle deadline, a
    mouse move with a stale ref or a scene change right after a click
    that read level 0; with a current ref the mouse handlers change the
    level from 0 only. *)
Lemma step_inv now now' ev st st' :
  inv now st → now ≤ now' → step now' ev st = Some st' →
  inv now' st' ∧
  transition ev (displayLevel st) (displayLevel st') ∧
  (displayLevel st' < displayLevel st → lowering now' ev st st') ∧
  (displayLevelRef st = displayLevel st →
   ev = PointerMove ∨ ev = PointerDown →
   promptTransition ev (displayLevel st) (displayLevel st')).
Proof.
  intros Hinv Hle Hstep. destruct ev as [| |i|h| |]; unfold step in Hstep.
  - destruct (listening st) eqn:Hls; [|done]. injection Hstep as <-.
    destruct (handleMouseMove_inv _ _ _ Hinv Hle Hls) as (? & ? & Hch).
    split; [done|]. split; [done|]. split.
    + intros Hlow. right. left. split; [done|]. apply Hch. lia.
    + intros Hsync _.
      destruct (decide (displayLevel (handleMouseMove now' st)
                        = displayLevel st)) as [->|Hne]; [constructor|].
      destruct (Hch Hne) as [Hz ->]. rewrite <-Hsync, Hz. constructor.
  - destruct (listening st) eqn:Hls; [|done]. injection Hstep as <-.
    destruct (handleMouseDown_inv _ _ _ Hinv Hle Hls) as (? & ? & Hch).
    split; [done|]. split; [done|]. split.
    + intros Hlow. destruct Hinv as (_ & Hrg & _).
      assert (displayLevel (handleMouseDown now' st) ≠ displayLevel st)
        as Hne by lia.
      destruct (Hch Hne) as [_ H3]. lia.
    + intros Hsync _.
      destruct (decide (displayLevel (handleMouseDown now' st)
                        = displayLevel st)) as [->|Hne]; [constructor|].
      destruct (Hch Hne) as [Hz ->]. rewrite <-Hsync, Hz. constructor.
  - destruct (listening st) eqn:Hls; [|done]. injection Hstep as <-.
    destruct (sceneChangeEffect_inv i now now' st Hinv Hle Hls)
      as (? & ? & ?).
    split; [done|]. split; [done|]. split; [done|].
    by intros _ [?|?].
  - destruct (fireTimeout_inv _ _ _ _ _ Hinv Hle Hstep) as (? & ? & ?).
    split; [done|]. split; [done|]. split; [done|].
    by intros _ [?|?].
  - destruct (listening st) eqn:Hls; [|done]. injection Hstep as <-.
    split; [by eapply syncRef_inv|]. split; [constructor|].
    split; [cbn; lia|]. by intros _ [?|?].
  - destruct (listening st) eqn:Hls; [|done]. injection Hstep as <-.
    destruct (cleanup_inv now now' st Hinv) as [? Hlv].
    rewrite Hlv. split; [done|]. split; [constructor|].
    split; [lia|]. by intros _ [?|?].
Qed.

Lemma reachable_inv now st : reachable now st → inv now st.
Proof.
  induction 1 as [now Hnow|now now' ev st st' _ IH Hle Hstep].
  - apply inv_init.
  - by destruct (step_inv _ _ _ _ _ IH Hle Hstep).
Qed.

(** *** Executions without a stale ref *)

Lemma syncRef_id st : displayLevelRef st = displayLevel st → syncRef st = st.
Proof. destruct st. cbn. by intros ->. Qed.

Lemma settled_init now : 500 ≤ now → settled now init.
Proof.
  intros Hnow. split; [done|]. split; [apply wf_init|]. cbn.
  split; [lia|]. split; [done|]. intros _. cbn. lia.
Qed.

Lemma settled_later now now' st : settled now st → now ≤ now' → settled now' st.
Proof.
  intros (Hsync & Hwf & Hts & Hph) Hle.
  split; [done|]. split; [done|]. split; [lia|].
  destruct (listening st); [|done]. destruct Hph as [Hst Hcw]. split.
  - unfold staged in *.
    destruct (pendingOf level2Timer st), (pendingOf level3Timer st),
      (pendingOf mouseIdleTimer st); try done; intuition lia.
  - intros H0 Hw. apply Hcw; [done|lia].
Qed.

Lemma settled_syncRef now st :
  listening st = true → wf st → timestamp (lastMouseDownLevel st) ≤ now →
  staged now st → clickWindow now st → settled now (syncRef st).
Proof.
  intros Hls Hwf Hts Hst Hcw. unfold settled.
  change (listening (syncRef st)) with (listening st). rewrite Hls.
  split; [done|]. split; [by apply syncRef_wf|]. split; [done|].
  split; [exact Hst|exact Hcw].
Qed.

Lemma handleMouseMove_settled now now' st :
  settled now st → now ≤ now' → listening st = true →
  settled now' (syncRef (handleMouseMove now' st)) ∧
  promptTransition PointerMove (displayLevel st)
    (displayLevel (syncRef (handleMouseMove now' st))) ∧
  displayLevel st ≤ displayLevel (syncRef (handleMouseMove now' st)).
Proof.
  intros (Hsync & Hwf & Hts & Hph) Hle Hls. rewrite Hls in Hph.
  destruct Hph as [Hst Hcw].
  pose proof (handleMouseMove_wf now' st Hwf) as Hwf'.
  destruct (handleMouseMove_pending now' st Hwf) as (Hsn & Hl & Hi & Hz & Hnz).
  set (st1 := handleMouseMove now' st) in *.
  change (displayLevel (syncRef st1)) with (displayLevel st1).
  rewrite Hls in Hl.
  destruct (decide (displayLevelRef st = 0)) as [Hz'|Hz'].
  - destruct (Hz Hz') as (Hlv & Hp2 & Hp3). rewrite Hlv, <-Hsync, Hz'.
    split; [|split; [constructor|lia]].
    apply settled_syncRef; try done; [rewrite Hsn; lia| |].
    + unfold staged. rewrite Hi, Hp2, Hp3, Hlv. cbn. lia.
    + unfold clickWindow. rewrite Hsn. intros H0 Hw. exfalso.
      destruct Hcw as (E2 & E3 & Hcw); [done|lia|].
      unfold staged in Hst. rewrite E2, E3 in Hst.
      destruct (pendingOf mouseIdleTimer st); [lia|done].
  - destruct (Hnz Hz') as (Hlv & Hp2 & Hp3). rewrite Hlv.
    split; [|split; [constructor|lia]].
    apply settled_syncRef; try done; [rewrite Hsn; lia| |].
    + unfold staged in *. rewrite Hi, Hp2, Hp3, Hlv.
      destruct (pendingOf level2Timer st), (pendingOf level3Timer st),
        (pendingOf mouseIdleTimer st); cbn; try done; lia.
    + unfold clickWindow in *. rewrite Hsn, Hi, Hp2, Hp3. cbn.
      intros H1 H2. destruct Hcw as (? & ? & ?); [done|lia|].
      repeat split; try done; lia.
Qed.

Lemma handleMouseDown_settled now now' st :
  settled now st → now ≤ now' → listening st = true →
  settled now' (syncRef (handleMouseDown now' st)) ∧
  promptTransition PointerDown (displayLevel st)
    (displayLevel (syncRef (handleMouseDown now' st))) ∧
  displayLevel st ≤ displayLevel (syncRef (handleMouseDown now' st)).
Proof.
  intros (Hsync & Hwf & Hts & Hph) Hle Hls. rewrite Hls in Hph.
  destruct Hph as [Hst Hcw].
  pose proof (handleMouseDown_wf now' st Hwf) as Hwf'.
  destruct (handleMouseDown_pending now' st Hwf) as (Hsn & Hl & Hi & Hz & Hnz).
  set (st1 := handleMouseDown now' st) in *.
  change (displayLevel (syncRef st1)) with (displayLevel st1).
  rewrite Hls in Hl.
  destruct (decide (displayLevelRef st = 0)) as [Hz'|Hz'].
  - destruct (Hz Hz') as (Hlv & Hp2 & Hp3). rewrite Hlv, <-Hsync, Hz'.
    split; [|split; [constructor|lia]].
    apply settled_syncRef; try done; [rewrite Hsn; cbn; lia| |].
    + unfold staged. rewrite Hi, Hp2, Hp3, Hlv. cbn. lia.
    + unfold clickWindow. rewrite Hsn, Hi, Hp2, Hp3. cbn. intros _ _.
      repeat split; try done; lia.
  - destruct (Hnz Hz') as (Hlv & Hp2 & Hp3). rewrite Hlv.
    split; [|split; [constructor|lia]].
    apply settled_syncRef; try done; [rewrite Hsn; cbn; lia| |].
    + unfold staged in *. rewrite Hi, Hp2, Hp3, Hlv.
      destruct (pendingOf level2Timer st), (pendingOf level3Timer st),
        (pendingOf mouseIdleTimer st); cbn; try done; lia.
    + unfold clickWindow. rewrite Hsn. cbn. intros H1. done.
Qed.

Lemma sceneChangeEffect_settled i now now' st :
  settled now st → now ≤ now' → listening st = true →
  settled now' (syncRef (sceneChangeEffect i now' st)) ∧
  promptTransition (SceneIndex i) (displayLevel st)
    (displayLevel (syncRef (sceneChangeEffect i now' st))) ∧
  (displayLevel (syncRef (sceneChangeEffect i now' st)) < displayLevel st →
   promptLowering now' (SceneIndex i) st
     (syncRef (sceneChangeEffect i now' st))).
Proof.
  intros (Hsync & Hwf & Hts & Hph) Hle Hls. rewrite Hls in Hph.
  destruct Hph as [Hst Hcw].
  pose proof (sceneChangeEffect_wf i now' st Hwf) as Hwf'.
  destruct (sceneChangeEffect_pending i now' st Hwf)
    as (Hsn & Hl & Hp2 & Hp3 & Hc).
  set (st1 := sceneChangeEffect i now' st) in *.
  change (displayLevel (syncRef st1)) with (displayLevel st1).
  rewrite Hls in Hl.
  destruct Hc as [[Hlv Hi]|(Hc & Hlv & Hi)].
  - rewrite Hlv. split; [|split; [constructor|lia]].
    apply settled_syncRef; try done; [rewrite Hsn; lia| |].
    + unfold staged in *. rewrite Hi, Hp2, Hp3, Hlv.
      destruct (pendingOf level2Timer st), (pendingOf level3Timer st),
        (pendingOf mouseIdleTimer st); cbn; try done; lia.
    + unfold clickWindow in *. rewrite Hsn, Hi, Hp2, Hp3.
      intros H1 H2. apply Hcw; [done|lia].
  - rewrite Hlv. unfold levelToCheck in Hc.
    destruct (Z.ltb_spec (now' - timestamp (lastMouseDownLevel st)) 500)
      as [Hw|Hw].
    + destruct Hcw as (E2 & E3 & Hcw); [done|lia|].
      unfold staged in Hst. rewrite E2, E3 in Hst.
      destruct (pendingOf mouseIdleTimer st) as [ti|] eqn:Ei; [|done].
      split; [|split].
      * apply settled_syncRef; try done; [rewrite Hsn; lia| |].
        -- unfold staged. rewrite Hi, Hp2, Hp3, E2, E3, Hlv. cbn. lia.
        -- unfold clickWindow. rewrite Hsn, Hi, Hp2, Hp3. cbn.
           intros _ _. repeat split; try done; lia.
      * destruct Hst as [->| ->]; constructor.
      * intros Hlow. right. destruct i as [idx|]; [|cbn in Hlv; lia].
        exists idx. repeat split; try done; lia.
    + rewrite Hsync in Hc. rewrite Hc.
      unfold staged in Hst.
      destruct (pendingOf level2Timer st) eqn:E2,
        (pendingOf level3Timer st) eqn:E3,
        (pendingOf mouseIdleTimer st) eqn:Ei; try done; try lia.
      split; [|split; [constructor|lia]].
      apply settled_syncRef; try done; [rewrite Hsn; lia| |].
      * unfold staged. rewrite Hi, Hp2, Hp3, Hlv. cbn. lia.
      * unfold clickWindow. rewrite Hsn. intros; lia.
Qed.

Lemma fireTimeout_settled now now' h st st1 :
  settled now st → now ≤ now' → fireTimeout now' h st = Some st1 →
  listening st1 = true ∧
  settled now' (syncRef st1) ∧
  promptTransition (Timeout h) (displayLevel st)
    (displayLevel (syncRef st1)) ∧
  (displayLevel (syncRef st1) < displayLevel st →
   promptLowering now' (Timeout h) st (syncRef st1)).
Proof.
  intros (Hsync & Hwf & Hts & Hph) Hle Hfire.
  pose proof (fireTimeout_wf _ _ _ _ Hwf Hfire) as Hwf'.
  destruct (fireTimeout_pending _ _ _ _ Hwf Hfire)
    as (t & Hh & Hdue & Hmin & Hlv & Hsn & Hl & Hp).
  destruct (listening st) eqn:Hls; [|by rewrite Hph in Hh].
  split; [done|].
  destruct Hph as [Hst Hcw].
  change (displayLevel (syncRef st1)) with (displayLevel st1).
  pose proof (Hp mouseIdleTimer ltac:(apply elem_of_cons; by left)) as Hpi.
  pose proof (Hp level2Timer
                ltac:(apply elem_of_cons; right; apply elem_of_cons; by left))
    as Hp2.
  pose proof (Hp level3Timer
                ltac:(do 2 (apply elem_of_cons; right);
                      apply elem_of_cons; by left))
    as Hp3.
  clear Hp. destruct Hwf as [_ Ht].
  destruct (Ht _ _ Hh) as (Htar & [Hi0 Hi1] & [H20 H21] & [H30 H31]).
  assert (∀ ref t', pendingOf ref st = Some t' → due t ≤ due t') as Hfirst.
  { intros ref t' (h' & _ & Hh')%pendingOf_Some.
    pose proof (map_Forall_lookup_1 _ _ _ _ Hmin Hh') as [?|[? _]]; lia. }
  unfold staged in Hst.
  destruct Htar as [H0|[H2|H3]].
  - (* the idle deadline *)
    rewrite bool_decide_true in Hpi by auto.
    rewrite bool_decide_false in Hp2 by (intros ?%H20; lia).
    rewrite bool_decide_false in Hp3 by (intros ?%H30; lia).
    pose proof (pendingOf_lookup mouseIdleTimer _ _ _ (Hi1 H0) Hh) as Ei.
    rewrite Ei in Hst.
    destruct (pendingOf level2Timer st) as [t2|] eqn:E2,
      (pendingOf level3Timer st) as [t3|] eqn:E3; try done.
    + pose proof (Hfirst _ _ E2). lia.
    + pose proof (Hfirst _ _ E3). lia.
    + rewrite Hlv, H0. split; [|split; [constructor|]].
      * apply settled_syncRef; [done|done|rewrite Hsn; lia| |].
        -- unfold staged. by rewrite Hpi, Hp2, Hp3, Hlv.
        -- unfold clickWindow in *. rewrite Hsn, Hpi, Hp2, Hp3.
           intros H1 H2. destruct Hcw as (_ & _ & Hcw); [done|lia|].
           rewrite Ei in Hcw. lia.
      * intros _. left. exists h, t. repeat split; try done.
        change (displayLevel st1 = 0). congruence.
  - (* the deadline towards level 2 *)
    rewrite bool_decide_false in Hpi by (intros ?%Hi0; lia).
    rewrite bool_decide_true in Hp2 by auto.
    rewrite bool_decide_false in Hp3 by (intros ?%H30; lia).
    pose proof (pendingOf_lookup level2Timer _ _ _ (H21 H2) Hh) as E2.
    rewrite E2 in Hst.
    destruct (pendingOf level3Timer st) as [t3|] eqn:E3,
      (pendingOf mouseIdleTimer st) as [ti|] eqn:Ei; try done.
    destruct Hst as (Hl1 & Hd & Hb & Hd').
    rewrite Hlv, H2, Hl1. split; [|split; [constructor|lia]].
    apply settled_syncRef; [done|done|rewrite Hsn; lia| |].
    + unfold staged. rewrite Hpi, Hp2, Hp3, Hlv. cbn. lia.
    + unfold clickWindow in *. rewrite Hsn, Hpi, Hp2, Hp3.
      intros H4 H5. destruct Hcw as (? & _); [done|lia|congruence].
  - (* the deadline towards level 3 *)
    rewrite bool_decide_false in Hpi by (intros ?%Hi0; lia).
    rewrite bool_decide_false in Hp2 by (intros ?%H20; lia).
    rewrite bool_decide_true in Hp3 by auto.
    pose proof (pendingOf_lookup level3Timer _ _ _ (H31 H3) Hh) as E3.
    rewrite E3 in Hst.
    destruct (pendingOf level2Timer st) as [t2|] eqn:E2,
      (pendingOf mouseIdleTimer st) as [ti|] eqn:Ei; try done.
    + pose proof (Hfirst _ _ E2). lia.
    + destruct Hst as (Hl2 & Hb & Hd').
      rewrite Hlv, H3, Hl2. split; [|split; [constructor|lia]].
      apply settled_syncRef; [done|done|rewrite Hsn; lia| |].
      * unfold staged. rewrite Hpi, Hp2, Hp3, Hlv. cbn. lia.
      * unfold clickWindow in *. rewrite Hsn, Hpi, Hp2, Hp3.
        intros H4 H5. destruct Hcw as (_ & ? & _); [done|lia|congruence].
Qed.

Lemma cleanup_settled now now' st :
  settled now st → now ≤ now' →
  settled now' (cleanup st) ∧ displayLevel (cleanup st) = displayLevel st.
Proof.
  intros (Hsync & Hwf & Hts & Hph) Hle.
  destruct (cleanup_timers st Hwf) as (Htm & Hl & Hlv & Hr & Hsn).
  split; [|done]. unfold settled. rewrite Hl, Hlv, Hr, Hsn.
  split; [done|]. split; [by apply cleanup_wf|]. split; [lia|done].
Qed.

(** When every event is rendered at once the level follows the stages of
    a reveal; when an event lowers it, it is the idle deadline or a scene
    change right after a click at level 0. *)
Lemma promptStep_settled now now' ev st st' :
  settled now st → now ≤ now' → promptStep now' ev st = Some st' →
  settled now' st' ∧
  promptTransition ev (displayLevel st) (displayLevel st') ∧
  (displayLevel st' < displayLevel st → promptLowering now' ev st st').
Proof.
  intros Hinv Hle Hstep. pose proof Hinv as (Hsync & Hwf & _).
  destruct ev as [| |i|h| |]; unfold promptStep, step in Hstep.
  - destruct (listening st) eqn:Hls; [|done].
    cbn [mbind option_bind] in Hstep.
    destruct (handleMouseMove_pending now' st Hwf) as (_ & Hl & _).
    rewrite Hl, Hls in Hstep. injection Hstep as <-.
    destruct (handleMouseMove_settled _ _ _ Hinv Hle Hls) as (? & ? & ?).
    split; [done|]. split; [done|]. intros ?; lia.
  - destruct (listening st) eqn:Hls; [|done].
    cbn [mbind option_bind] in Hstep.
    destruct (handleMouseDown_pending now' st Hwf) as (_ & Hl & _).
    rewrite Hl, Hls in Hstep. injection Hstep as <-.
    destruct (handleMouseDown_settled _ _ _ Hinv Hle Hls) as (? & ? & ?).
    split; [done|]. split; [done|]. intros ?; lia.
  - destruct (listening st) eqn:Hls; [|done].
    cbn [mbind option_bind] in Hstep.
    rewrite (syncRef_id st Hsync) in Hstep.
    destruct (sceneChangeEffect_pending i now' st Hwf) as (_ & Hl & _).
    rewrite Hl, Hls in Hstep. injection Hstep as <-.
    by apply (sceneChangeEffect_settled i now).
  - destruct (fireTimeout now' h st) as [st1|] eqn:Hfire; [|done].
    cbn [mbind option_bind] in Hstep.
    destruct (fireTimeout_settled _ _ _ _ _ Hinv Hle Hfire)
      as (Hl & ? & ? & ?).
    rewrite Hl in Hstep. by injection Hstep as <-.
  - destruct (listening st) eqn:Hls; [|done].
    cbn [mbind option_bind] in Hstep.
    change (listening (syncRef st)) with (listening st) in Hstep.
    rewrite Hls, !(syncRef_id st Hsync) in Hstep. injection Hstep as <-.
    split; [by eapply settled_later|]. split; [constructor|lia].
  - destruct (listening st) eqn:Hls; [|done]. injection Hstep as <-.
    destruct (cleanup_settled _ _ _ Hinv Hle) as [? Hlv].
    rewrite Hlv. split; [done|]. split; [constructor|]. intros ?; lia.
Qed.

Lemma prompt_settled now st : prompt now st → settled now st.
Proof.
  induction 1 as [now Hnow|now now' ev st st' _ IH Hle Hstep].
  - by apply settled_init.
  - by destruct (promptStep_settled _ _ _ _ _ IH Hle Hstep).
Qed.




(** *** The statements at concrete inputs *)



Lemma sceneChangeEffect_spec_witness :
  let st := syncRef (sceneChangeEffect (Some 1) 1000 init) in
  wf st ∧ previousSceneIndex st = Some 1 ∧
  displayLevel (sceneChangeEffect (Some 2) 1000 st) = 1 ∧
  displayLevel (syncRef (handleMouseDown 1000 st)) = 3 ∧
  displayLevel
    (sceneChangeEffect (Some 2) 1100 (syncRef (handleMouseDown 1000 st)))
  = 1.
Proof.
  intros st.
  assert (wf st) as Hwf.
  { apply syncRef_wf, sceneChangeEffect_wf, wf_init. }
  destruct sceneChangeEffect_spec as (Hgen & _ & Hclick).
  destruct (Hgen 1000 2 1 st Hwf eq_refl ltac:(lia))
    as (_ & _ & Hz & _ & _).
  destruct (Hz eq_refl) as (Hl & _ & _).
  destruct (Hclick 1000 1100 2 1 st eq_refl eq_refl ltac:(lia) ltac:(lia))
    as (H3 & _ & H1).
  split; [exact Hwf|]. split; [reflexivity|]. split; [exact Hl|].
  split; [exact H3|exact H1].
Defined.


End DisplayLevelFacts.

(** ** The auto-play hook *)

Module AutoPlayFacts.
Import AutoPlay.
Local Open Scope Qc_scope.

Example run_paused :
  snd <$> run [(0, TogglePlay); (Qc_of_Z 2000, Pause (Qc_of_Z 1000));
               (Qc_of_Z 2400, Tick 1); (Qc_of_Z 4800, Tick 1)] init
  = Some [(Qc_of_Z 4800, OnNext)].
Proof. vm_compute. reflexivity. Qed.

Ltac auto_eval :=
  cbv [togglePlay setSpeed toggleReverse pause render effect cleanupEffect
       unmount deps set_isPlaying set_speed set_reverse set_pausedUntil
       isPlaying speed reverse pausedUntil intervals nextIntervalId
       effectInterval] in *.

Lemma autoPlay_inv_init : inv init.
Proof. split; [intros h iv; cbn; by rewrite lookup_empty|done]. Qed.

(** The effect after its cleanup: one fresh interval when playing, none
    otherwise, whatever was pending before. *)
Lemma restart_inv now st :
  inv st → ∀ p m r,
  inv (effect now (cleanupEffect
         (State p m r (pausedUntil st) (intervals st) (nextIntervalId st)
            (effectInterval st)))) ∧
  (p = true →
   intervals (effect now (cleanupEffect
         (State p m r (pausedUntil st) (intervals st) (nextIntervalId st)
            (effectInterval st))))
   = {[nextIntervalId st :=
         Interval (baseInterval / m) (now + baseInterval / m) r]}).
Proof.
  intros [Hf Hinv] p m r.
  destruct st as [p0 m0 r0 pu ivs nx ei]. auto_eval.
  assert (match ei with Some h => delete h ivs | None => ivs end = ∅)
    as Hempty.
  { destruct p0.
    - destruct Hinv as (h & iv & -> & -> & _). apply delete_singleton_eq.
    - rewrite Hinv. destruct ei; [apply delete_empty|done]. }
  destruct ei as [h|]; destruct p; cbn; rewrite ?Hempty, ?insert_empty.
  all: split; [split|try done].
  all: cbn [isPlaying speed reverse pausedUntil intervals nextIntervalId
            effectInterval].
  all: try (intros h' iv'; rewrite ?lookup_singleton, ?lookup_empty;
            try case_decide; intros; simplify_eq; lia).
  all: try done.
  all: by exists nx, (Interval (baseInterval / m) (now + baseInterval / m) r).
Qed.

Lemma autoPlay_step_inv now ev st st' out :
  inv st → step now ev st = Some (st', out) → inv st'.
Proof.
  intros Hinv Hstep. destruct ev as [|m| |d|h]; cbn [step] in Hstep.
  - injection Hstep as <- _. unfold togglePlay, render.
    case_bool_decide as Hd.
    + exfalso. destruct st as [[] ? ? ? ? ? ?]; cbv in Hd; congruence.
    + apply (restart_inv now st Hinv).
  - injection Hstep as <- _. unfold setSpeed, render.
    case_bool_decide as Hd.
    + destruct st; cbv [deps set_speed isPlaying speed reverse] in Hd.
      simplify_eq. exact Hinv.
    + apply (restart_inv now st Hinv).
  - injection Hstep as <- _. unfold toggleReverse, render.
    case_bool_decide as Hd.
    + exfalso. destruct st as [? ? [] ? ? ? ?]; cbv in Hd; congruence.
    + apply (restart_inv now st Hinv).
  - injection Hstep as <- _. destruct st. exact Hinv.
  - unfold tick in Hstep.
    destruct (intervals st !! h) as [iv|] eqn:Hh; [|done].
    injection Hstep as <- _.
    destruct Hinv as [Hf Hinv]. destruct st as [p m r pu ivs nx ei].
    cbn in *. destruct p; [|by rewrite Hinv in Hh].
    destruct Hinv as (h' & iv' & -> & -> & Hper & Hrev).
    apply lookup_singleton_Some in Hh as [<- <-].
    rewrite insert_singleton_eq. split.
    + intros h'' iv''. cbn. intros [<- _]%lookup_singleton_Some.
      apply (Hf h' iv'), lookup_singleton_eq.
    + eexists h', _. repeat split; done.
Qed.

Lemma autoPlay_reachable_inv st : reachable st → inv st.
Proof.
  induction 1 as [|now ev st st' out _ IH Hstep]; [apply autoPlay_inv_init|].
  by eapply autoPlay_step_inv.
Qed.

Lemma tick_spec now h st st' out :
  tick now h st = Some (st', out) →
  ∃ iv, intervals st !! h = Some iv ∧
    out = onTick now iv st ∧
    intervals st'
    = <[h := Interval (period iv) (due iv + period iv) (closedReverse iv)]>
        (intervals st) ∧
    pausedUntil st' = pausedUntil st ∧ isPlaying st' = isPlaying st ∧
    speed st' = speed st ∧ reverse st' = reverse st.
Proof.
  unfold tick. intros Htick.
  destruct (intervals st !! h) as [iv|] eqn:Hh; [|done].
  injection Htick as <- <-.
  exists iv. by destruct st.
Qed.

(** A run of the callback of the one interval of a playing hook. *)
Lemma tick_playing now h iv st :
  inv st → isPlaying st = true → intervals st = {[h := iv]} →
  ∃ st',
    tick now h st
    = Some (st', if bool_decide (now < pausedUntil st) then None
                 else Some (if reverse st then OnPrev else OnNext)) ∧
    intervals st'
    = {[h := Interval (period iv) (due iv + period iv) (closedReverse iv)]} ∧
    pausedUntil st' = pausedUntil st ∧ isPlaying st' = true ∧
    speed st' = speed st ∧ reverse st' = reverse st.
Proof.
  intros [_ Hinv] Hp Hm. rewrite Hp in Hinv.
  destruct Hinv as (h' & iv' & _ & Hm' & _ & Hrev).
  rewrite Hm in Hm'. apply (f_equal (lookup h)) in Hm'.
  rewrite lookup_singleton_eq in Hm'. symmetry in Hm'.
  apply lookup_singleton_Some in Hm' as [<- <-].
  unfold tick. rewrite Hm, lookup_singleton_eq, insert_singleton_eq.
  eexists. split; [unfold onTick; by rewrite Hrev|].
  destruct st; cbn in *. rewrite Hrev. by repeat split.
Qed.

(** C5. While playing exactly one interval is pending and the delay it was
    started with is [baseInterval / speed]; every run of its callback, at
    whatever time the runtime makes it, invokes nothing when
    [now < pausedUntil] and otherwise [onPrev] when the direction is
    reversed and [onNext] when it is not, and leaves the interval pending
    with the same delay, so that the next run does the same; [pause] sets
    [pausedUntil = now + duration], leaves the interval as it is, and
    suppresses exactly the runs before [now + duration]; while not playing
    no interval is pending and no callback runs. *)
Theorem autoPlay_ticks st :
  reachable st →
  (isPlaying st = true →
     ∃ h iv, intervals st = {[h := iv]} ∧
             period iv = baseInterval / speed st ∧
       ∀ now, ∃ st',
         tick now h st
         = Some (st', if bool_decide (now < pausedUntil st) then None
                      else Some (if reverse st then OnPrev else OnNext)) ∧
         intervals st'
         = {[h := Interval (period iv) (due iv + period iv)
                     (closedReverse iv)]} ∧
         pausedUntil st' = pausedUntil st ∧ isPlaying st' = true ∧
         speed st' = speed st ∧ reverse st' = reverse st ∧
         reachable st') ∧
  (isPlaying st = false →
     intervals st = ∅ ∧ ∀ now h, tick now h st = None) ∧
  (∀ now h st' out, tick now h st = Some (st', out) →
     ∃ iv, intervals st !! h = Some iv ∧
       (now < pausedUntil st → out = None) ∧
       (pausedUntil st ≤ now →
          out = Some (if reverse st then OnPrev else OnNext)) ∧
       intervals st'
       = {[h := Interval (period iv) (due iv + period iv)
                   (closedReverse iv)]} ∧
       pausedUntil st' = pausedUntil st ∧ isPlaying st' = isPlaying st) ∧
  (∀ d p,
     let paused := pause d p st in
     pausedUntil paused = p + d ∧ intervals paused = intervals st ∧
     isPlaying paused = isPlaying st ∧
     (∀ now h, (intervals ∘ fst) <$> tick now h paused
               = (intervals ∘ fst) <$> tick now h st) ∧
     (∀ now h st' out, tick now h paused = Some (st', out) →
        (out = None ↔ now < p + d)) ∧
     (isPlaying st = true →
        ∃ h, ∀ now, ∃ st',
          tick now h paused
          = Some (st', if bool_decide (now < p + d) then None
                       else Some (if reverse st then OnPrev else OnNext)))).
Proof.
  intros Hr. pose proof (autoPlay_reachable_inv _ Hr) as Hboth.
  pose proof Hboth as [Hf Hinv]. split; [|split; [|split]].
  - intros Hp. rewrite Hp in Hinv.
    destruct Hinv as (h & iv & _ & Hm & Hper & _). exists h, iv.
    split; [done|]. split; [done|]. intros now.
    destruct (tick_playing now h iv st Hboth Hp Hm)
      as (st' & Htick & ? & ? & ? & ? & ?).
    exists st'. repeat split; try done.
    by apply (reachable_step now (Tick h) st st' _ Hr Htick).
  - intros Hp. rewrite Hp in Hinv. split; [done|].
    intros now h. unfold tick. by rewrite Hinv, lookup_empty.
  - intros now h st' out (iv & Hh & -> & Hiv & Hpu & Hp)%tick_spec.
    exists iv. destruct (isPlaying st); [|by rewrite Hinv in Hh].
    destruct Hinv as (h' & iv' & _ & Hm & _ & Hrev). rewrite Hm in Hh, Hiv.
    apply lookup_singleton_Some in Hh as [<- <-].
    rewrite insert_singleton_eq in Hiv. unfold onTick. rewrite <-Hrev.
    split; [rewrite Hm; apply lookup_singleton_eq|].
    split; [intros Hlt; by rewrite bool_decide_true|].
    split; [|by destruct Hp as (? & ? & ?)].
    intros Hle. rewrite bool_decide_false; [done|]. by apply Qcle_not_lt.
  - intros d p paused. subst paused.
    split; [by destruct st|]. split; [by destruct st|].
    split; [by destruct st|]. split; [|split].
    + intros now h. unfold tick, pause. destruct st as [? ? ? ? ivs ? ?]; cbn.
      by destruct (ivs !! h) as [iv|].
    + intros now h st' out (iv & Hh & -> & _)%tick_spec.
      unfold onTick. destruct st; cbn. case_bool_decide; split; done.
    + intros Hp.
      assert (reachable (pause d p st)) as Hr'.
      { by apply (reachable_step p (Pause d) st _ None Hr). }
      pose proof (autoPlay_reachable_inv _ Hr') as Hboth'.
      rewrite Hp in Hinv. destruct Hinv as (h & iv & _ & Hm & _).
      exists h. intros now.
      destruct (tick_playing now h iv (pause d p st) Hboth')
        as (st' & Htick & _); [by destruct st|by destruct st|].
      exists st'. rewrite Htick. by destruct st.
Qed.

(** C6, as stated, fails: [setSpeed] with the speed the hook already has
    causes no render, the running interval stays and its next run is not
    moved. *)
Lemma everySetSpeedRestarts_fails : ¬ everySetSpeedRestarts.
Proof.
  intros Hclaim.
  assert (reachable (togglePlay 0 init)) as Hr.
  { by apply (reachable_step 0 TogglePlay init _ None); [constructor|]. }
  destruct (Hclaim (Qc_of_Z 1000) 1 _ Hr eq_refl) as [h Hh].
  assert (bool_decide
            (due <$> intervals (setSpeed 1 (Qc_of_Z 1000) (togglePlay 0 init))
                       !! 1%positive
             = Some baseInterval) = true) as Hdue
    by (vm_compute; reflexivity).
  apply bool_decide_eq_true in Hdue. rewrite Hh in Hdue.
  destruct (decide (h = 1%positive)) as [->|Hne].
  - rewrite lookup_singleton_eq in Hdue. injection Hdue as Hdue.
    assert (bool_decide (Qc_of_Z 1000 + baseInterval / 1 = baseInterval)
            = false) as Hneq by (vm_compute; reflexivity).
    by apply bool_decide_eq_false in Hneq.
  - by rewrite lookup_singleton_ne in Hdue.
Qed.

(** C6, as amended.  [setSpeed m] with [m] different from the current
    speed while playing: the running interval is cleared and a new one
    with period [baseInterval / m] is started, its first run
    [baseInterval / m] after the change whatever the old interval had
    left to wait. *)
Theorem setSpeed_restarts now m st :
  reachable st → isPlaying st = true → m ≠ speed st →
  let st' := setSpeed m now st in
  (∀ h, effectInterval st = Some h → intervals st' !! h = None) ∧
  ∃ h', effectInterval st' = Some h' ∧
    intervals st'
    = {[h' := Interval (baseInterval / m) (now + baseInterval / m)
                 (reverse st)]} ∧
    speed st' = m ∧ isPlaying st' = true.
Proof.
  intros Hinv%autoPlay_reachable_inv Hp Hne st'. subst st'.
  unfold setSpeed, render. rewrite bool_decide_false; last first.
  { destruct st; cbv [deps set_speed isPlaying speed reverse].
    cbn in Hne. congruence. }
  destruct (restart_inv now st Hinv (isPlaying st) m (reverse st)) as [_ Hiv].
  specialize (Hiv Hp). unfold set_speed. rewrite Hiv. split.
  - intros h Hh. destruct Hinv as [Hf Hinv]. rewrite Hp in Hinv.
    destruct Hinv as (h0 & iv & Hh0 & Hm & _).
    rewrite lookup_singleton_ne; [done|].
    assert (h < nextIntervalId st)%positive; [|lia].
    apply (Hf h iv). rewrite Hm. replace h0 with h by congruence.
    apply lookup_singleton_eq.
  - exists (nextIntervalId st). destruct st as [p ? ? ? ? ? ei]. cbn in *.
    subst p. by destruct ei.
Qed.

(** *** The statements at concrete inputs *)

(** Playing since 0 and paused at 2000 for 1000 ms: the run of the
    callback at 2400 invokes nothing, the one at 4800 invokes [onNext]. *)
Lemma autoPlay_ticks_witness :
  let playing := togglePlay 0 init in
  let paused := pause (Qc_of_Z 1000) (Qc_of_Z 2000) playing in
  reachable playing ∧ isPlaying playing = true ∧
  ∃ h,
    snd <$> tick (Qc_of_Z 2400) h playing = Some (Some OnNext) ∧
    snd <$> tick (Qc_of_Z 2400) h paused = Some None ∧
    snd <$> tick (Qc_of_Z 4800) h paused = Some (Some OnNext).
Proof.
  intros playing paused.
  assert (reachable playing) as Hr.
  { by apply (reachable_step 0 TogglePlay init _ None); [constructor|]. }
  split; [exact Hr|]. split; [reflexivity|].
  destruct (autoPlay_ticks playing Hr) as (Hplay & _ & _ & Hpause).
  destruct (Hplay eq_refl) as (h & iv & Hm & _ & Htick).
  destruct (Hpause (Qc_of_Z 1000) (Qc_of_Z 2000))
    as (_ & _ & _ & _ & _ & Hp).
  destruct (Hp eq_refl) as (h' & Htick').
  assert (h' = h) as ->.
  { destruct (Htick' 0) as (st' & Hsome).
    apply tick_spec in Hsome as (iv' & Hh' & _).
    change (intervals (pause (Qc_of_Z 1000) (Qc_of_Z 2000) playing))
      with (intervals playing) in Hh'.
    rewrite Hm in Hh'. by apply lookup_singleton_Some in Hh' as [-> _]. }
  exists h. split; [|split].
  - destruct (Htick (Qc_of_Z 2400)) as (st' & -> & _).
    vm_compute. reflexivity.
  - unfold paused. destruct (Htick' (Qc_of_Z 2400)) as (st' & ->).
    vm_compute. reflexivity.
  - unfold paused. destruct (Htick' (Qc_of_Z 4800)) as (st' & ->).
    vm_compute. reflexivity.
Defined.

Lemma setSpeed_restarts_witness :
  reachable (togglePlay 0 init) ∧
  isPlaying (togglePlay 0 init) = true ∧
  Qc_of_Z 2 ≠ speed (togglePlay 0 init) ∧
  ∃ h, effectInterval (setSpeed (Qc_of_Z 2) (Qc_of_Z 1000) (togglePlay 0 init))
       = Some h ∧
       intervals (setSpeed (Qc_of_Z 2) (Qc_of_Z 1000) (togglePlay 0 init))
       = {[h := Interval (baseInterval / Qc_of_Z 2)
                   (Qc_of_Z 1000 + baseInterval / Qc_of_Z 2) false]}.
Proof.
  assert (reachable (togglePlay 0 init)) as Hr.
  { by apply (reachable_step 0 TogglePlay init _ None); [constructor|]. }
  assert (Qc_of_Z 2 ≠ speed (togglePlay 0 init)) as Hne.
  { apply (bool_decide_eq_false_1 _). vm_compute. reflexivity. }
  split; [exact Hr|]. split; [reflexivity|]. split; [exact Hne|].
  destruct (setSpeed_restarts (Qc_of_Z 1000) (Qc_of_Z 2) _ Hr eq_refl Hne)
    as (_ & h & Hh & Hiv & _).
  exists h. split; [exact Hh|exact Hiv].
Defined.

End AutoPlayFacts.

(** ** The notification hook *)

Module NotificationFacts.
Import Notification.

Lemma notification_wf_init : wf init.
Proof. split; intros h; cbn; [intros d|]; by rewrite ?lookup_empty. Qed.

Lemma showNotification_timers message duration now st :
  wf st →
  timers (showNotification message duration now st)
  = {[nextTimerId st := now + default 2000 duration]}.
Proof.
  intros [Ht Hf]. unfold showNotification. cbn [timers].
  rewrite <-insert_empty. f_equal. apply map_eq. intros h.
  rewrite lookup_empty.
  destruct (notificationTimer st) as [h0|] eqn:Hn.
  - rewrite lookup_delete. case_decide; [done|].
    destruct (timers st !! h) as [d|] eqn:Hh; [|done].
    destruct (Ht _ _ Hh). congruence.
  - destruct (timers st !! h) as [d|] eqn:Hh; [|done].
    destruct (Ht _ _ Hh). congruence.
Qed.

Lemma notification_step_wf now ev st st' :
  wf st → step now ev st = Some st' → wf st'.
Proof.
  intros Hwf Hstep. destruct ev as [message duration|h]; cbn in Hstep.
  - injection Hstep as <-. split.
    + intros h d. rewrite (showNotification_timers _ _ _ _ Hwf). cbn.
      intros [<- _]%lookup_singleton_Some. split; [done|lia].
    + cbn. intros h [= <-]. lia.
  - unfold fireTimeout in Hstep. destruct Hwf as [Ht Hf].
    destruct (timers st !! h) as [d|] eqn:Hh; [|done].
    case_bool_decide; [|done]. injection Hstep as <-. split; cbn.
    + intros h' d'. rewrite lookup_delete. case_decide; [done|]. apply Ht.
    + apply Hf.
Qed.

Lemma notification_reachable_wf st : reachable st → wf st.
Proof.
  induction 1 as [|now ev st st' _ IH Hstep]; [apply notification_wf_init|].
  by eapply notification_step_wf.
Qed.

(** C9.  In every reachable state at most one expiry is pending.
    [showNotification] cancels the expiry the ref remembers, shows the new
    message and leaves exactly one expiry pending, due after the given
    duration (2000 ms when none is given); it does not run before, and
    when it runs the notification is set back to none. *)
Theorem showNotification_spec message duration now st :
  reachable st →
  let st' := showNotification message duration now st in
  (∀ h1 h2 d1 d2,
     timers st !! h1 = Some d1 → timers st !! h2 = Some d2 → h1 = h2) ∧
  (∀ h, notificationTimer st = Some h → timers st' !! h = None) ∧
  notification st' = Some message ∧
  ∃ h, notificationTimer st' = Some h ∧
    timers st' = {[h := now + default 2000 duration]} ∧
    (∀ now', now' < now + default 2000 duration →
       fireTimeout now' h st' = None) ∧
    (∀ now', now + default 2000 duration ≤ now' →
       ∃ st'', fireTimeout now' h st' = Some st'' ∧
               notification st'' = None ∧ timers st'' = ∅).
Proof.
  intros Hwf%notification_reachable_wf st'.
  pose proof (showNotification_timers message duration now st Hwf) as Htm.
  fold st' in Htm. destruct Hwf as [Ht Hf].
  split; [|split; [|split; [done|]]].
  - intros h1 h2 d1 d2 [H1 _]%Ht [H2 _]%Ht. congruence.
  - intros h Hh%Hf. rewrite Htm. apply lookup_singleton_ne. lia.
  - exists (nextTimerId st). split; [done|]. split; [done|].
    unfold fireTimeout. rewrite Htm, lookup_singleton_eq. split.
    + intros now' Hlt. rewrite bool_decide_false; [done|lia].
    + intros now' Hle. rewrite bool_decide_true by done.
      eexists. split; [done|]. cbn. split; [done|].
      apply delete_singleton_eq.
Qed.

(** *** The statement at a concrete input *)

Lemma showNotification_spec_witness :
  reachable init ∧
  notification (showNotification "Auto-play ON" None 1000 init)
  = Some "Auto-play ON"%string ∧
  ∃ h, timers (showNotification "Auto-play ON" None 1000 init)
       = {[h := 3000]}.
Proof.
  split; [apply reachable_init|].
  destruct (showNotification_spec "Auto-play ON" None 1000 init
              reachable_init) as (_ & _ & Hn & h & _ & Ht & _).
  split; [exact Hn|]. exists h. exact Ht.
Defined.

End NotificationFacts.

(** ** The content hook *)

Module ImageContentFacts.
Import ImageContent.

Example run_sceneInfoFails :
  run 5 sceneInfoFails 0 handleNextPage initialStore
  = (Store (Some page1) None false None false false
       [Log "=== handleNextPage called ===";
        Log "Invoking next_page command...";
        Log "next_page response:";
        Log "Getting scene info...";
        Error "Failed to navigate to next page:" "offline"],
     [(NextPage, true); (GetSceneInfo, false)], Fulfilled).
Proof. vm_compute. reflexivity. Qed.

Ltac run_cases :=
  repeat match goal with
  | |- context [match ?a ?n ?c with _ => _ end] =>
    destruct (a n c) as [?|?] eqn:?; cbn
  | H : context [match ?a ?n ?c with _ => _ end] |- _ =>
    destruct (a n c) as [?|?] eqn:?; cbn in H
  end.

Ltac elem_cases H :=
  repeat (apply elem_of_cons in H as [H|H]; [simplify_eq|]);
  try (by apply elem_of_nil in H).

Lemma run_fulfilled e h answers s :
  ∃ s' calls, run 5 answers 0 (body e h) s = (s', calls, Fulfilled).
Proof.
  destruct s as [? ? ? ? ? nav ?], e as [dev ? ?].
  destruct h; cbn; try destruct dev; try destruct nav; cbn.
  all: run_cases; eauto.
Qed.

Lemma loadInitialScene_run e answers s s' calls o :
  run 5 answers 0 (loadInitialScene e) s = (s', calls, o) →
  loading s' = false ∧
  (∀ c, (c, false) ∈ calls →
     ∃ err,
       error s' = Some (String.append "Failed to load scene: "%string err)).
Proof.
  destruct s as [? ? ? ? ? nav ?], e as [dev ? ?].
  cbn. destruct dev; cbn; intros Hrun.
  all: run_cases; simplify_eq; cbn; (split; [done|]).
  all: intros c Hc; try (by eexists).
  all: by elem_cases Hc.
Qed.

Lemma navigation_run e h answers s s' calls o :
  isNavigation h = true →
  run 5 answers 0 (body e h) s = (s', calls, o) →
  loading s' = loading s ∧ error s' = error s ∧
  (∀ c, (c, false) ∈ calls →
     ∃ message err, last (console s') = Some (Error message err)) ∧
  (∀ c calls', calls = (c, false) :: calls' →
     imageData s' = imageData s ∧ sceneInfo s' = sceneInfo s).
Proof.
  destruct s as [? ? ? ? ? nav cs], e as [dev ? ?].
  destruct h; try done; intros _; cbn; try destruct nav; cbn; intros Hrun.
  all: run_cases; simplify_eq; cbn; (split; [done|]); (split; [done|]).
  all: split; [intros c Hc|intros c calls' Hcalls; by simplify_eq].
  all: try (rewrite last_snoc; by eexists _, _).
  all: by elem_cases Hc.
Qed.

(** C8, as stated, fails: when [next_page] is answered and the scene
    info that follows is rejected, the new image is already in
    [imageData]. *)
Lemma navigationFailureLeavesState_fails :
  ¬ ∃ e, navigationFailureLeavesState e.
Proof.
  intros [e Hclaim].
  destruct (Hclaim HandleNextPage sceneInfoFails initialStore _ _ _
              eq_refl run_sceneInfoFails) as [Himg _].
  - exists GetSceneInfo. apply elem_of_cons. right.
    apply elem_of_cons. by left.
  - discriminate Himg.
Qed.

(** C8, as amended.  Every handler catches what it awaits: whatever the
    backend answers, its promise is fulfilled.  After the initial load
    [loading] is false, and when a call of it was rejected [error] holds
    the message.  A navigation leaves [loading] and [error] as they were;
    when a call of it was rejected the last thing it did was to log the
    error, and when the rejected call was its first, the navigation
    command itself, [imageData] and [sceneInfo] are as they were. *)
Theorem failures_are_caught e :
  (∀ h answers s,
     ∃ s' calls, run 5 answers 0 (body e h) s = (s', calls, Fulfilled)) ∧
  (∀ answers s s' calls o,
     run 5 answers 0 (loadInitialScene e) s = (s', calls, o) →
     loading s' = false ∧
     (∀ c, (c, false) ∈ calls →
        ∃ err,
          error s'
          = Some (String.append "Failed to load scene: "%string err))) ∧
  (∀ h answers s s' calls o,
     isNavigation h = true →
     run 5 answers 0 (body e h) s = (s', calls, o) →
     loading s' = loading s ∧ error s' = error s ∧
     (∀ c, (c, false) ∈ calls →
        ∃ message err, last (console s') = Some (Error message err)) ∧
     (∀ c calls', calls = (c, false) :: calls' →
        imageData s' = imageData s ∧ sceneInfo s' = sceneInfo s)).
Proof.
  split; [apply run_fulfilled|].
  split; [apply loadInitialScene_run|apply navigation_run].
Qed.

Lemma advance_keeps {A} (t : async A) s :
  keeps t →
  isNavigating (advance t s).1 = isNavigating s ∧
  match (advance t s).2 with
  | Await c k => ∀ r, keeps (k r)
  | Read _ | Write _ _ => False
  | _ => True
  end.
Proof.
  intros Hk. revert s.
  induction Hk as [| |k _ IH|f k Hf _ IH|c k Hk _]; intros s; cbn.
  - done.
  - done.
  - apply IH.
  - destruct (IH (f s)) as [-> ?]. by rewrite Hf.
  - done.
Qed.

Lemma advance_releasing {A} (t : async A) s :
  releasing t →
  match (advance t s).2 with
  | Await c k =>
    isNavigating (advance t s).1 = isNavigating s ∧ ∀ r, releasing (k r)
  | Read _ | Write _ _ => False
  | _ => isNavigating (advance t s).1 = false
  end.
Proof.
  intros Hr. revert s.
  induction Hr as [f k Hf Hk|f k Hf _ IH|k _ IH|c k Hk _]; intros s; cbn.
  - destruct k; try done; cbn; apply Hf.
  - specialize (IH (f s)). destruct (advance k (f s)) as [s' t'].
    destruct t'; cbn in *; try done.
    destruct IH as [-> ?]. by rewrite Hf.
  - apply IH.
  - done.
Qed.

Ltac keeps_tac :=
  repeat first
    [ progress cbn
    | apply keeps_return | apply keeps_throw
    | apply keeps_write; [by intros []|]
    | apply keeps_read; intros ?
    | apply keeps_await; intros [?|?]
    | match goal with
      | |- context [if ?b then _ else _] => destruct b
      end ].

Lemma body_keeps e h : isPageNavigation h = false → keeps (body e h).
Proof.
  destruct e as [dev ? ?].
  destruct h; try done; intros _; cbn. 
  all: try destruct dev. all: keeps_tac.
Qed.

Ltac releasing_tac :=
  repeat first
    [ progress cbn
    | apply releasing_write; [by intros []|]
    | apply releasing_reset; [by intros []|done]
    | apply releasing_read; intros ?
    | apply releasing_await; intros [?|?] ].

(** A page navigation called while the guard is set returns at once:
    only the console changes. *)
Lemma call_page_guarded e h m :
  isPageNavigation h = true → isNavigating (ui m) = true →
  inflight (call e h m) = inflight m ∧ invoked (call e h m) = invoked m ∧
  unhandled (call e h m) = unhandled m ∧
  imageData (ui (call e h m)) = imageData (ui m) ∧
  sceneInfo (ui (call e h m)) = sceneInfo (ui m) ∧
  loading (ui (call e h m)) = loading (ui m) ∧
  error (ui (call e h m)) = error (ui m) ∧
  isNavigating (ui (call e h m)) = true.
Proof.
  destruct m as [[? ? ? ? ? nav ?] ? ? ?]. cbn. intros Hh ->.
  destruct h; done.
Qed.

(** A page navigation called while the guard is clear sets the guard and
    is suspended at its first command. *)
Lemma call_page_free e h m :
  isPageNavigation h = true → isNavigating (ui m) = false →
  ∃ c k, inflight (call e h m) = inflight m ++ [(h, Await c k)] ∧
    invoked (call e h m) = invoked m ++ [c] ∧
    isNavigating (ui (call e h m)) = true ∧
    ∀ r, releasing (k r).
Proof.
  destruct m as [[? ? ? ? ? nav ?] ? ? ?]. cbn. intros Hh ->.
  destruct h; try done; cbn.
  all: eexists _, _; split; [reflexivity|]; split; [done|]; split; [done|].
  all: intros [?|?]; releasing_tac.
Qed.

Lemma call_other e h m :
  isPageNavigation h = false →
  isNavigating (ui (call e h m)) = isNavigating (ui m) ∧
  (inflight (call e h m) = inflight m ∨
   ∃ c k, inflight (call e h m) = inflight m ++ [(h, Await c k)] ∧
          ∀ r, keeps (k r)).
Proof.
  intros Hh. unfold call.
  destruct (advance_keeps (body e h) (ui m) (body_keeps e h Hh)) as [Hn Hk].
  destruct (advance (body e h) (ui m)) as [s t]. cbn in *.
  split; [by destruct t|].
  destruct t; try done; try (by left). right. by eexists _, _.
Qed.

Lemma length_filter_delete {A} (P : A → Prop) `{!∀ x, Decision (P x)}
    (l : list A) i x :
  l !! i = Some x →
  length (filter P l)
  = (length (filter P (delete i l)) + if decide (P x) then 1 else 0)%nat.
Proof.
  revert i. induction l as [|y l IH]; intros [|i] Hi; simplify_eq/=.
  - rewrite filter_cons. case_decide; cbn; lia.
  - rewrite !filter_cons. specialize (IH _ Hi).
    destruct (decide (P y)); cbn; lia.
Qed.

Lemma guardInv_call e h m : guardInv m → guardInv (call e h m).
Proof.
  intros [Hs Hn]. unfold guardInv, pageNavigations in *.
  destruct (isPageNavigation h) eqn:Hh.
  - destruct (isNavigating (ui m)) eqn:Hnav.
    + destruct (call_page_guarded e h m Hh Hnav)
        as (-> & _ & _ & _ & _ & _ & _ & ->). done.
    + destruct (call_page_free e h m Hh Hnav) as (c & k & -> & _ & -> & Hk).
      split.
      * apply Forall_app. split; [done|]. apply Forall_singleton.
        exists c, k. split; [done|]. intros r. cbn. rewrite Hh. apply Hk.
      * rewrite filter_app, length_app, Hn, filter_cons. cbn.
        rewrite decide_True by done. done.
  - destruct (call_other e h m Hh) as [-> [-> |(c & k & -> & Hk)]]; [done|].
    split.
    + apply Forall_app. split; [done|]. apply Forall_singleton.
      exists c, k. split; [done|]. intros r. cbn. rewrite Hh. apply Hk.
    + rewrite filter_app, length_app, Hn, filter_cons. cbn.
      rewrite decide_False by (rewrite Hh; done). cbn. lia.
Qed.

Lemma guardInv_mount e : guardInv (mount e).
Proof.
  unfold mount. do 2 apply guardInv_call. split; [constructor|done].
Qed.

Lemma guardInv_settle i answer m m' :
  guardInv m → settle i answer m = Some m' → guardInv m'.
Proof.
  intros [Hs Hn] Hsettle. unfold settle in Hsettle.
  destruct (inflight m !! i) as [[h t]|] eqn:Hi; [|done].
  pose proof (Forall_lookup_1 _ _ _ _ Hs Hi) as (c & k & Ht & Hk).
  cbn in Ht. subst t. cbn in Hk. specialize (Hk (answer c)).
  pose proof (length_filter_delete
                (λ p : handler * async unit, isPageNavigation p.1 = true)
                _ _ _ Hi) as Hlen.
  fold (pageNavigations m) in Hlen. rewrite Hn in Hlen. cbn in Hlen.
  assert (Forall suspended (delete i (inflight m))) as Hs'.
  { by apply Forall_delete. }
  unfold guardInv, pageNavigations in *.
  destruct (isPageNavigation h) eqn:Hh.
  - pose proof (advance_releasing _ (ui m) Hk) as Hadv.
    destruct (advance (k (answer c)) (ui m)) as [s t].
    injection Hsettle as <-. cbn in Hadv.
    rewrite decide_True in Hlen by done.
    destruct (isNavigating (ui m)) eqn:Hnav; [|lia].
    destruct t; try done; cbn; try (rewrite Hadv; split; [done|lia]).
    destruct Hadv as [-> Hk']. split.
    + apply Forall_app. split; [done|]. apply Forall_singleton.
      eexists _, _. split; [done|]. intros r. cbn. rewrite Hh. apply Hk'.
    + rewrite filter_app, length_app, filter_cons. cbn.
      rewrite decide_True by done. cbn. lia.
  - pose proof (advance_keeps _ (ui m) Hk) as [Hnav Hadv].
    destruct (advance (k (answer c)) (ui m)) as [s t].
    injection Hsettle as <-. cbn in Hadv, Hnav.
    rewrite decide_False in Hlen by done.
    destruct t; try done; cbn; rewrite Hnav; try (split; [done|lia]).
    split.
    + apply Forall_app. split; [done|]. apply Forall_singleton.
      eexists _, _. split; [done|]. intros r. cbn. rewrite Hh. apply Hadv.
    + rewrite filter_app, length_app, filter_cons. cbn.
      rewrite decide_False by (rewrite Hh; done). cbn. lia.
Qed.

Lemma reachable_guardInv e m : reachable e m → guardInv m.
Proof.
  induction 1 as [|ev m m' _ IH Hstep]; [apply guardInv_mount|].
  destruct ev as [h|i answer]; cbn in Hstep.
  - destruct h; simplify_eq; by apply guardInv_call.
  - by eapply guardInv_settle.
Qed.

(** C10.  In every reachable state of the hook at most one page
    navigation is in flight, and one is in flight exactly when the guard
    is set; [handleNextPage] or [handlePrevPage] called meanwhile returns
    without a command to the backend, without a new handler in flight and
    with [imageData] and [sceneInfo] as they were. *)
Theorem page_navigation_guard e m :
  reachable e m →
  (length (pageNavigations m) ≤ 1)%nat ∧
  (isNavigating (ui m) = true ↔ pageNavigations m ≠ []) ∧
  (∀ h, isPageNavigation h = true → pageNavigations m ≠ [] →
     inflight (call e h m) = inflight m ∧
     invoked (call e h m) = invoked m ∧
     imageData (ui (call e h m)) = imageData (ui m) ∧
     sceneInfo (ui (call e h m)) = sceneInfo (ui m)).
Proof.
  intros [Hs Hn]%reachable_guardInv.
  assert (isNavigating (ui m) = true ↔ pageNavigations m ≠ []) as Hiff.
  { destruct (isNavigating (ui m)), (pageNavigations m); cbn in Hn;
      split; done. }
  split; [destruct (isNavigating (ui m)); lia|]. split; [done|].
  intros h Hh Hnav%Hiff.
  by destruct (call_page_guarded e h m Hh Hnav) as (? & ? & _ & ? & ? & _).
Qed.

(** *** The statements at concrete inputs *)

Lemma failures_are_caught_witness :
  let e := Env true None None in
  let offline : backend := λ _ c, inr "offline"%string in
  isNavigation HandleNextScene = true ∧
  (∃ s' calls,
     run 5 offline 0 (body e HandleNextScene) initialStore
     = (s', calls, Fulfilled)) ∧
  imageData (run 5 offline 0 (body e HandleNextScene) initialStore).1.1
  = None.
Proof.
  intros e offline. destruct (failures_are_caught e) as (Hf & _ & Hn).
  split; [reflexivity|]. split; [apply Hf|].
  destruct (Hn HandleNextScene offline initialStore _ _ _ eq_refl eq_refl)
    as (_ & _ & _ & Hfirst).
  exact (proj1 (Hfirst _ _ eq_refl)).
Defined.

Lemma page_navigation_guard_witness :
  let e := Env true None None in
  let m := call e HandleNextPage (mount e) in
  reachable e m ∧ pageNavigations m ≠ [] ∧
  inflight (call e HandlePrevPage m) = inflight m ∧
  invoked (call e HandlePrevPage m) = invoked m.
Proof.
  intros e m.
  assert (reachable e m) as Hr.
  { apply (reachable_step e (Call HandleNextPage) (mount e));
      [apply reachable_mount|reflexivity]. }
  assert (pageNavigations m ≠ []) as Hp by (vm_compute; discriminate).
  split; [exact Hr|]. split; [exact Hp|].
  destruct (page_navigation_guard e m Hr) as (_ & _ & Hg).
  destruct (Hg HandlePrevPage eq_refl Hp) as (Hi & Hv & _).
  split; [exact Hi|exact Hv].
Defined.

End ImageContentFacts.

(** ** Teardown *)

Module AppFacts.
Import App.

(** The cleanups that exist clear what their hooks own. *)
Lemma unmount_clears_effects a :
  DisplayLevel.wf (displayLevel a) → AutoPlay.inv (autoPlay a) →
  DisplayLevel.timers (displayLevel (unmount a)) = ∅ ∧
  DisplayLevel.listening (displayLevel (unmount a)) = false ∧
  AutoPlay.intervals (autoPlay (unmount a)) = ∅ ∧
  keydownListener (unmount a) = false.
Proof.
  intros Hwf [_ Hinv]. cbn.
  destruct (DisplayLevelFacts.cleanup_timers _ Hwf) as (-> & -> & _).
  repeat split. unfold AutoPlay.unmount, AutoPlay.cleanupEffect.
  destruct (AutoPlay.isPlaying (autoPlay a)).
  - destruct Hinv as (h & iv & -> & -> & _). cbn. apply delete_singleton_eq.
  - destruct (AutoPlay.effectInterval (autoPlay a)); cbn; rewrite Hinv;
      [apply delete_empty|done].
Qed.

(** C7 on the code: the space key at 1000 ms shows a notification whose
    expiry is due at 3000 ms; after an unmount at any time before, the
    listeners are gone and the other timers are cleared, but the expiry is
    still pending and its callback runs at 3000 ms. *)
Theorem unmount_leaves_notification_timer :
  let a := unmount (pressSpace 1000 mount) in
  DisplayLevel.timers (displayLevel a) = ∅ ∧
  DisplayLevel.listening (displayLevel a) = false ∧
  AutoPlay.intervals (autoPlay a) = ∅ ∧
  keydownListener a = false ∧
  Notification.timers (notification a) = {[1%positive := 3000]} ∧
  Notification.fireTimeout 3000 1 (notification a)
  = Some (Notification.State None (Some 1%positive) ∅ 2) ∧
  ¬ tornDown a.
Proof.
  repeat split; try (vm_compute; reflexivity).
  intros (_ & _ & _ & Hn & _).
  apply (f_equal (λ m, m !! 1%positive)) in Hn. vm_compute in Hn. done.
Qed.

End AppFacts.

(** ** The display level hook over whole executions *)

Module DisplayLevelRuns.
Import DisplayLevel DisplayLevelFacts.

(** X1. In every reachable state of [useDisplayLevel] the display level
    is one of 0, 1, 2 and 3. *)
Theorem level_range now st : reachable now st → 0 ≤ displayLevel st ≤ 3.
Proof. by intros (_ & ? & _)%reachable_inv. Qed.

Lemma pending_idleAt st ti :
  tracked st → pendingOf mouseIdleTimer st = Some ti → idleAt (due ti) st.
Proof.
  intros Ht (h & Hm & Hh)%pendingOf_Some.
  destruct (Ht _ _ Hh) as (_ & [Hi _] & _). specialize (Hi Hm).
  exists h. split; [done|]. split; [by destruct ti; simplify_eq/=|].
  intros h' t' Hh' Ht'. destruct (Ht _ _ Hh') as (_ & [_ Hi'] & _).
  specialize (Hi' Ht'). congruence.
Qed.

Lemma nothing_pending st :
  tracked st →
  pendingOf mouseIdleTimer st = None → pendingOf level2Timer st = None →
  pendingOf level3Timer st = None → timers st = ∅.
Proof.
  intros Ht Ei E2 E3. apply map_eq. intros h. rewrite lookup_empty.
  destruct (timers st !! h) as [t|] eqn:Hh; [|done].
  destruct (Ht _ _ Hh) as ([H|[H|H]] & [_ Hi] & [_ H2] & [_ H3]).
  - by rewrite (pendingOf_lookup mouseIdleTimer _ _ _ (Hi H) Hh) in Ei.
  - by rewrite (pendingOf_lookup level2Timer _ _ _ (H2 H) Hh) in E2.
  - by rewrite (pendingOf_lookup level3Timer _ _ _ (H3 H) Hh) in E3.
Qed.

Lemma paced_idle now st :
  wf st → paced now st →
  (displayLevel st = 0 → noDeadline 2 st ∧ noDeadline 3 st) ∧
  (displayLevel st ≠ 0 → ∃ d, idleAt d st).
Proof.
  intros [_ Ht] Hp. unfold paced in Hp. split.
  - intros H0. split; intros h t Hh Htar;
      destruct (Ht _ _ Hh) as (_ & _ & [_ H2] & [_ H3]).
    + rewrite (pendingOf_lookup level2Timer _ _ _ (H2 Htar) Hh) in Hp.
      destruct (pendingOf level3Timer st), (pendingOf mouseIdleTimer st);
        try done; lia.
    + rewrite (pendingOf_lookup level3Timer _ _ _ (H3 Htar) Hh) in Hp.
      destruct (pendingOf level2Timer st), (pendingOf mouseIdleTimer st);
        try done; lia.
  - intros Hn.
    destruct (pendingOf mouseIdleTimer st) as [ti|] eqn:Ei.
    + exists (due ti). by apply pending_idleAt.
    + destruct (pendingOf level2Timer st), (pendingOf level3Timer st);
        done.
Qed.

Lemma staged_hidden now st :
  wf st → staged now st → displayLevel st = 0 → timers st = ∅.
Proof.
  intros [_ Ht] Hst H0. unfold staged in Hst.
  destruct (pendingOf level2Timer st) as [t2|] eqn:E2,
    (pendingOf level3Timer st) as [t3|] eqn:E3,
    (pendingOf mouseIdleTimer st) as [ti|] eqn:Ei; try done; try lia.
  by apply nothing_pending.
Qed.

(** X2. While the hook is mounted, whatever the order of handlers and
    renders: at level 0 no deadline towards level 2 or 3 is pending, and
    at every other level the reset to 0 is pending, as the only callback
    with that target.  In the executions in which every event is rendered
    before the next one arrives, no timer at all is pending at level 0. *)
Theorem idle_reset_pending now st :
  reachable now st → listening st = true →
  (displayLevel st = 0 → noDeadline 2 st ∧ noDeadline 3 st) ∧
  (displayLevel st ≠ 0 → ∃ d, idleAt d st) ∧
  (prompt now st → displayLevel st = 0 → timers st = ∅).
Proof.
  intros (Hwf & _ & Hph)%reachable_inv Hls. rewrite Hls in Hph.
  destruct (paced_idle now st Hwf Hph) as [H0 Hn].
  split; [done|]. split; [done|].
  intros (_ & _ & _ & Hst)%prompt_settled Hz. rewrite Hls in Hst.
  destruct Hst as [Hst _]. by eapply staged_hidden.
Qed.

(** X3. In every reachable state at most one callback is pending for each
    target level: two pending callbacks with the same target are the same
    timer. *)
Theorem one_timer_per_purpose now st h1 h2 t1 t2 :
  reachable now st →
  timers st !! h1 = Some t1 → timers st !! h2 = Some t2 →
  target t1 = target t2 → h1 = h2.
Proof.
  intros ([_ Ht] & _)%reachable_inv H1 H2 Heq.
  destruct (Ht _ _ H1) as ([H|[H|H]] & [_ Hi1] & [_ H21] & [_ H31]);
    destruct (Ht _ _ H2) as (_ & [_ Hi2] & [_ H22] & [_ H32]).
  - specialize (Hi1 H). rewrite Heq in H. specialize (Hi2 H). congruence.
  - specialize (H21 H). rewrite Heq in H. specialize (H22 H). congruence.
  - specialize (H31 H). rewrite Heq in H. specialize (H32 H). congruence.
Qed.

(** X4. The cleanup of the mount effect is final: after it no timer is
    pending and no listener is registered, the level stays as it was, and
    no event of the hook can happen any more. *)
Theorem unmount_is_final now now' st st' :
  reachable now st → step now' Unmount st = Some st' →
  timers st' = ∅ ∧ listening st' = false ∧
  displayLevel st' = displayLevel st ∧
  ∀ now'' ev, step now'' ev st' = None.
Proof.
  intros (Hwf & _)%reachable_inv Hstep. unfold step in Hstep.
  destruct (listening st); [|done]. injection Hstep as <-.
  destruct (cleanup_timers st Hwf) as (Htm & Hls & Hlv & _).
  split; [done|]. split; [done|]. split; [done|].
  intros now'' ev. unfold step. rewrite Hls.
  destruct ev; try done. unfold fireTimeout. by rewrite Htm, lookup_empty.
Qed.

Lemma run_cons clock now ev evs st :
  run clock ((now, ev) :: evs) st
  = if bool_decide (clock ≤ now) then step now ev st ≫= run now evs else None.
Proof. cbn. case_bool_decide; [|done]. by destruct (step now ev st). Qed.

(** A callback that is first in the order of the runtime runs as soon as
    it is due, and not before. *)
Lemma fire_first now h t st :
  timers st !! h = Some t →
  (∀ h' t', timers st !! h' = Some t' → precedes h t h' t') →
  fireTimeout now h st
  = if bool_decide (due t ≤ now)
    then Some (setDisplayLevel (target t) (clearTimeout h st)) else None.
Proof.
  intros Hh Hmin. unfold fireTimeout. rewrite Hh.
  destruct (decide (due t ≤ now)) as [Hd|Hd].
  - rewrite (bool_decide_true (due t ≤ now)) by done.
    rewrite bool_decide_true; [done|]. split; [done|].
    by apply map_Forall_lookup_2.
  - rewrite (bool_decide_false (due t ≤ now)) by done.
    rewrite bool_decide_false; [done|]. by intros [? _].
Qed.

(** After a mouse move that read level 0 the three new callbacks are the
    only ones pending. *)
Lemma handleMouseMove_reveal now st :
  wf st → displayLevelRef st = 0 →
  let h2 := nextTimerId st in
  timers (handleMouseMove now st)
  = <[Pos.succ (Pos.succ h2) := Timer (now + 3000) 0]>
      (<[Pos.succ h2 := Timer (now + 500) 3]>
         (<[h2 := Timer (now + 200) 2]> ∅)) ∧
  displayLevel (handleMouseMove now st) = 1 ∧
  listening (handleMouseMove now st) = listening st.
Proof.
  intros Hwf Hz. destruct (cleanup_timers st Hwf) as (Hempty & _).
  destruct st as [lv ref mi l2 l3 ps sn tm nx ls]. cbn in Hz. subst ref.
  destruct mi, l2, l3; hook_eval; cbn in Hempty |- *; by rewrite Hempty.
Qed.

(** X5. The reveal from any reachable state in which the handler reads
    level 0, with every event rendered at once or none rendered at all: a
    mouse move at [now] shows level 1 at once; its first timer gives
    level 2 and runs when the runtime picks it at [now + 200] or later,
    and not before; its second gives level 3, at [now + 500] or later and
    not before; its third hides everything again, at [now + 3000] or
    later and not before. *)
Theorem reveal_then_idle rendered clock now st :
  reachable clock st → listening st = true → displayLevelRef st = 0 →
  clock ≤ now →
  let h2 := nextTimerId st in
  let h3 := Pos.succ h2 in
  let hi := Pos.succ h3 in
  displayLevel <$> run clock (eachRendered rendered [(now, PointerMove)]) st
  = Some 1 ∧
  ∀ t2 t3 t4,
    displayLevel <$>
      run clock
        (eachRendered rendered [(now, PointerMove); (t2, Timeout h2)]) st
    = (if bool_decide (now + 200 ≤ t2) then Some 2 else None) ∧
    displayLevel <$>
      run clock
        (eachRendered rendered
           [(now, PointerMove); (t2, Timeout h2); (t3, Timeout h3)]) st
    = (if bool_decide (now + 200 ≤ t2 ∧ t2 ≤ t3 ∧ now + 500 ≤ t3)
       then Some 3 else None) ∧
    displayLevel <$>
      run clock
        (eachRendered rendered
           [(now, PointerMove); (t2, Timeout h2); (t3, Timeout h3);
            (t4, Timeout hi)]) st
    = (if bool_decide (now + 200 ≤ t2 ∧ t2 ≤ t3 ∧ now + 500 ≤ t3 ∧
                       t3 ≤ t4 ∧ now + 3000 ≤ t4)
       then Some 0 else None).
Proof.
  intros (Hwf & _)%reachable_inv Hls Hz Hc.
  destruct (handleMouseMove_reveal now st Hwf Hz) as (Htm & Hlv & Hl).
  rewrite Hls in Hl.
  assert (step now PointerMove st = Some (handleMouseMove now st)) as S1.
  { unfold step. by rewrite Hls. }
  destruct (handleMouseMove now st)
    as [lv1 ref1 mi1 l21 l31 ps1 sn1 tm1 nx1 ls1] eqn:Est.
  cbn in Htm, Hlv, Hl. subst tm1 lv1 ls1.
  set (nx := nextTimerId st) in *. clearbody nx. clear Est Hwf Hz.
  assert (∀ r1 r2 r3 t2 (tm : gmap positive timer) l,
    tm = <[Pos.succ (Pos.succ nx) := Timer (now + 3000) 0]>
           (<[Pos.succ nx := Timer (now + 500) 3]>
              (<[nx := Timer (now + 200) 2]> ∅)) →
    fireTimeout t2 nx (State l r1 mi1 l21 l31 ps1 sn1 tm r2 r3)
    = if bool_decide (now + 200 ≤ t2)
      then Some (State 2 r1 mi1 l21 l31 ps1 sn1 (delete nx tm) r2 r3)
      else None) as F2.
  { intros r1 r2 r3 t2 tm l ->. erewrite fire_first;
      [ | cbn [timers]; repeat (rewrite lookup_insert_ne by lia);
          apply lookup_insert_eq
        | cbn [timers]; intros ? ? ?; map_cases; unfold precedes;
          cbn [due]; lia ].
    done. }
  assert (∀ r1 r2 r3 t3 (tm : gmap positive timer) l,
    tm = delete nx
           (<[Pos.succ (Pos.succ nx) := Timer (now + 3000) 0]>
              (<[Pos.succ nx := Timer (now + 500) 3]>
                 (<[nx := Timer (now + 200) 2]> ∅))) →
    fireTimeout t3 (Pos.succ nx) (State l r1 mi1 l21 l31 ps1 sn1 tm r2 r3)
    = if bool_decide (now + 500 ≤ t3)
      then Some (State 3 r1 mi1 l21 l31 ps1 sn1 (delete (Pos.succ nx) tm)
                   r2 r3)
      else None) as F3.
  { intros r1 r2 r3 t3 tm l ->. erewrite fire_first;
      [ | cbn [timers]; rewrite lookup_delete_ne by lia;
          repeat (rewrite lookup_insert_ne by lia);
          apply lookup_insert_eq
        | cbn [timers]; intros ? ? ?; map_cases; unfold precedes;
          cbn [due]; lia ].
    done. }
  assert (∀ r1 r2 r3 t4 (tm : gmap positive timer) l,
    tm = delete (Pos.succ nx) (delete nx
           (<[Pos.succ (Pos.succ nx) := Timer (now + 3000) 0]>
              (<[Pos.succ nx := Timer (now + 500) 3]>
                 (<[nx := Timer (now + 200) 2]> ∅)))) →
    fireTimeout t4 (Pos.succ (Pos.succ nx))
      (State l r1 mi1 l21 l31 ps1 sn1 tm r2 r3)
    = if bool_decide (now + 3000 ≤ t4)
      then Some (State 0 r1 mi1 l21 l31 ps1 sn1
                   (delete (Pos.succ (Pos.succ nx)) tm) r2 r3)
      else None) as F4.
  { intros r1 r2 r3 t4 tm l ->. erewrite fire_first;
      [ | cbn [timers]; repeat (rewrite lookup_delete_ne by lia);
          apply lookup_insert_eq
        | cbn [timers]; intros ? ? ?; map_cases; unfold precedes;
          cbn [due]; lia ].
    done. }
  intros h2 h3 hi. subst h2 h3 hi.
  destruct rendered; cbn [eachRendered mbind list_bind mapM app fst snd
                          foldr fmap list_fmap concat].
  all: split; [|intros t2 t3 t4; split; [|split]].
  all: repeat first
    [ rewrite run_cons
    | rewrite S1
    | progress unfold step
    | progress unfold syncRef, set_displayLevelRef
    | erewrite F2 by reflexivity
    | erewrite F3 by reflexivity
    | erewrite F4 by reflexivity
    | progress cbn [mbind option_bind listening syncRef set_displayLevelRef
        displayLevel displayLevelRef mouseIdleTimer level2Timer level3Timer
        previousSceneIndex lastMouseDownLevel timers nextTimerId fst snd]
    | case_bool_decide ]; try done; try lia.
Qed.


(** No event before [d] hides what is shown: only the reset to 0 lowers
    the level to 0, and every handler that sets it again sets it 3000 ms
    ahead. *)
Lemma step_shown d now ev st st' :
  shownUntil d st → now < d → d ≤ now + 3000 →
  step now ev st = Some st' → shownUntil d st'.
Proof.
  intros (Hwf & Hlv & Hidle) Hlt Hd Hstep.
  destruct ev as [| |i|h| |]; unfold step in Hstep.
  - destruct (listening st); [|done]. injection Hstep as <-.
    destruct (handleMouseMove_pending now st Hwf) as (_ & _ & Hi & Hz & Hnz).
    split; [by apply handleMouseMove_wf|]. split.
    + destruct (decide (displayLevelRef st = 0)) as [H0|H0].
      * destruct (Hz H0) as (-> & _). lia.
      * destruct (Hnz H0) as (-> & _). done.
    + intros ti. rewrite Hi. intros [= <-]. cbn. lia.
  - destruct (listening st); [|done]. injection Hstep as <-.
    destruct (handleMouseDown_pending now st Hwf) as (_ & _ & Hi & Hz & Hnz).
    split; [by apply handleMouseDown_wf|]. split.
    + destruct (decide (displayLevelRef st = 0)) as [H0|H0].
      * destruct (Hz H0) as (-> & _). lia.
      * destruct (Hnz H0) as (-> & _). done.
    + intros ti. rewrite Hi. intros [= <-]. cbn. lia.
  - destruct (listening st); [|done]. injection Hstep as <-.
    pose proof (syncRef_wf st Hwf) as Hwf1.
    destruct (sceneChangeEffect_pending i now _ Hwf1)
      as (_ & _ & _ & _ & Hc).
    split; [by apply sceneChangeEffect_wf|].
    destruct Hc as [[-> ->]|(_ & -> & ->)].
    + split; [done|]. exact Hidle.
    + split; [lia|]. intros ti [= <-]. cbn. lia.
  - destruct (fireTimeout_pending _ _ _ _ Hwf Hstep)
      as (t & Hh & Hdue & _ & Hl & _ & _ & Hp).
    split; [by eapply fireTimeout_wf|].
    assert (target t ≠ 0) as Hn.
    { intros H0. destruct Hwf as [_ Ht].
      destruct (Ht _ _ Hh) as (_ & [_ Hi] & _).
      pose proof (Hidle _ (pendingOf_lookup mouseIdleTimer _ _ _ (Hi H0) Hh)).
      lia. }
    split; [by rewrite Hl|].
    intros ti. rewrite (Hp mouseIdleTimer) by (apply elem_of_cons; by left).
    case_bool_decide; [done|]. apply Hidle.
  - destruct (listening st); [|done]. injection Hstep as <-.
    split; [by apply syncRef_wf|]. split; [done|]. exact Hidle.
  - destruct (listening st); [|done]. injection Hstep as <-.
    destruct (cleanup_timers st Hwf) as (Htm & _ & Hl & _).
    split; [by apply cleanup_wf|]. split; [by rewrite Hl|].
    intros ti (h & _ & Hh)%pendingOf_Some.
    by rewrite Htm, lookup_empty in Hh.
Qed.

Lemma run_shown d clock evs st st' :
  shownUntil d st → d ≤ clock + 3000 →
  Forall (λ p : Z * event, p.1 < d) evs →
  run clock evs st = Some st' → shownUntil d st'.
Proof.
  intros Hs Hd Hevs. revert clock st Hs Hd.
  induction Hevs as [|[now ev] evs Hlt _ IH]; intros clock st Hs Hd Hrun.
  - by injection Hrun as <-.
  - rewrite run_cons in Hrun. case_bool_decide as Hc; [|done].
    destruct (step now ev st) as [st1|] eqn:Hstep; [|done].
    cbn in Hlt. cbn [mbind option_bind] in Hrun.
    apply (IH now st1); [|lia|done].
    eapply step_shown; [done|done|lia|done].
Qed.

(** X7. After a mouse move or a click at [now] that leaves something
    shown, it stays shown for 3000 ms: whatever happens before
    [now + 3000] (timers, further moves and clicks, scene changes,
    renders in any order, even the unmount), the level is not 0. *)
Theorem revealed_for_3000 clock now ev st st1 evs st2 :
  reachable clock st → clock ≤ now →
  ev = PointerMove ∨ ev = PointerDown →
  step now ev st = Some st1 → displayLevel st1 ≠ 0 →
  Forall (λ p : Z * event, p.1 < now + 3000) evs →
  run now evs st1 = Some st2 →
  displayLevel st2 ≠ 0.
Proof.
  intros (Hwf & _)%reachable_inv Hc Hev Hstep Hlv Hevs Hrun.
  assert (shownUntil (now + 3000) st1) as Hs.
  { unfold step in Hstep.
    destruct Hev as [-> | ->]; destruct (listening st); try done;
      injection Hstep as <-.
    - destruct (handleMouseMove_pending now st Hwf) as (_ & _ & Hi & _).
      split; [by apply handleMouseMove_wf|]. split; [done|].
      intros ti. rewrite Hi. intros [= <-]. cbn. lia.
    - destruct (handleMouseDown_pending now st Hwf) as (_ & _ & Hi & _).
      split; [by apply handleMouseDown_wf|]. split; [done|].
      intros ti. rewrite Hi. intros [= <-]. cbn. lia. }
  by destruct (run_shown (now + 3000) now evs st1 st2 Hs ltac:(lia) Hevs
                 Hrun) as (_ & ? & _).
Qed.

(** *** The statements at concrete inputs *)

Lemma reachable_moved : reachable 1000 (handleMouseMove 1000 init).
Proof.
  apply (reachable_step 500 1000 PointerMove init);
    [apply reachable_init; lia|lia|reflexivity].
Qed.

Lemma level_range_witness :
  reachable 1000 (handleMouseMove 1000 init) ∧
  0 ≤ displayLevel (handleMouseMove 1000 init) ≤ 3.
Proof.
  split; [exact reachable_moved|].
  exact (level_range _ _ reachable_moved).
Defined.

Lemma idle_reset_pending_witness :
  let st := handleMouseMove 1000 init in
  reachable 1000 st ∧ listening st = true ∧ displayLevel st ≠ 0 ∧
  ∃ d, idleAt d st.
Proof.
  intros st.
  assert (displayLevel st ≠ 0) as Hne by (vm_compute; discriminate).
  split; [exact reachable_moved|]. split; [reflexivity|].
  split; [exact Hne|].
  exact (proj1 (proj2 (idle_reset_pending 1000 st reachable_moved eq_refl))
           Hne).
Defined.

Lemma one_timer_per_purpose_witness :
  let st := handleMouseMove 1000 init in
  reachable 1000 st ∧
  timers st !! nextTimerId init = Some (Timer 1200 2) ∧
  nextTimerId init = nextTimerId init.
Proof.
  intros st.
  assert (timers st !! nextTimerId init = Some (Timer 1200 2)) as Hh
    by (vm_compute; reflexivity).
  split; [exact reachable_moved|]. split; [exact Hh|].
  exact (one_timer_per_purpose 1000 st _ _ _ _ reachable_moved Hh Hh
           eq_refl).
Defined.

Lemma unmount_is_final_witness :
  let st := handleMouseMove 1000 init in
  reachable 1000 st ∧ step 2000 Unmount st = Some (cleanup st) ∧
  timers (cleanup st) = ∅ ∧ step 3000 PointerMove (cleanup st) = None ∧
  step 3000 Render (cleanup st) = None.
Proof.
  intros st.
  destruct (unmount_is_final 1000 2000 st (cleanup st) reachable_moved
              eq_refl) as (Ht & _ & _ & Hfinal).
  split; [exact reachable_moved|]. split; [reflexivity|].
  split; [exact Ht|]. split; apply Hfinal.
Defined.

Lemma reveal_then_idle_witness :
  let h2 := nextTimerId init in
  let evs :=
    [(1000, PointerMove); (1200, Timeout h2);
     (1500, Timeout (Pos.succ h2));
     (4000, Timeout (Pos.succ (Pos.succ h2)))] in
  reachable 500 init ∧ listening init = true ∧ displayLevelRef init = 0 ∧
  displayLevel <$> run 500 (eachRendered true evs) init = Some 0 ∧
  displayLevel <$> run 500 (eachRendered false evs) init = Some 0.
Proof.
  intros h2 evs.
  assert (reachable 500 init) as Hr by (apply reachable_init; lia).
  split; [exact Hr|]. split; [reflexivity|]. split; [reflexivity|].
  split.
  - exact (proj2 (proj2 (proj2
      (reveal_then_idle true 500 1000 init Hr eq_refl eq_refl ltac:(lia))
      1200 1500 4000))).
  - exact (proj2 (proj2 (proj2
      (reveal_then_idle false 500 1000 init Hr eq_refl eq_refl ltac:(lia))
      1200 1500 4000))).
Defined.


Lemma revealed_for_3000_witness :
  let st1 := handleMouseMove 1000 init in
  let evs := [(1000, Render); (1200, Timeout (nextTimerId init));
              (1300, PointerDown)] in
  reachable 500 init ∧ step 1000 PointerMove init = Some st1 ∧
  displayLevel st1 ≠ 0 ∧
  Forall (λ p : Z * event, p.1 < 1000 + 3000) evs ∧
  displayLevel <$> run 1000 evs st1 ≠ Some 0.
Proof.
  intros st1 evs.
  assert (reachable 500 init) as Hr by (apply reachable_init; lia).
  assert (displayLevel st1 ≠ 0) as Hne by (vm_compute; discriminate).
  assert (Forall (λ p : Z * event, p.1 < 1000 + 3000) evs) as Hevs.
  { repeat (apply Forall_cons; split; [cbn; lia|]). apply Forall_nil_2. }
  split; [exact Hr|]. split; [reflexivity|]. split; [exact Hne|].
  split; [exact Hevs|].
  destruct (run 1000 evs st1) as [st2|] eqn:Hrun; [|discriminate].
  intros [= Hl].
  exact (revealed_for_3000 500 1000 PointerMove init st1 evs st2 Hr
           ltac:(lia) (or_introl eq_refl) eq_refl Hne Hevs Hrun Hl).
Defined.

End DisplayLevelRuns.

(** ** The auto-play hook over whole executions *)

Module AutoPlayRuns.
Import AutoPlay AutoPlayFacts.
Local Open Scope Qc_scope.

(** X8. [togglePlay] flips [isPlaying].  Starting leaves exactly one
    interval, new, with period [2400 / speed] and first tick one period
    after the call; stopping leaves no interval, so no tick can run. *)
Theorem togglePlay_starts_and_stops now st :
  reachable st →
  isPlaying (togglePlay now st) = negb (isPlaying st) ∧
  (isPlaying st = false →
     intervals (togglePlay now st)
     = {[nextIntervalId st :=
           Interval (baseInterval / speed st)
             (now + baseInterval / speed st) (reverse st)]}) ∧
  (isPlaying st = true →
     intervals (togglePlay now st) = ∅ ∧
     ∀ t h, tick t h (togglePlay now st) = None).
Proof.
  intros Hinv%autoPlay_reachable_inv.
  unfold togglePlay, render. rewrite bool_decide_false; last first.
  { destruct st as [[] ? ? ? ? ? ?]; cbv [deps set_isPlaying isPlaying speed
      reverse negb]; congruence. }
  destruct (restart_inv now st Hinv (negb (isPlaying st)) (speed st)
              (reverse st)) as [Hinv' Hiv].
  unfold set_isPlaying.
  set (st' := effect now _) in *.
  assert (isPlaying st' = negb (isPlaying st)) as Hp.
  { subst st'. destruct st as [[] ? ? ? ? ? []]; done. }
  split; [done|]. split.
  - intros Hplay. apply Hiv. by rewrite Hplay.
  - intros Hplay. destruct Hinv' as [_ Hinv']. rewrite Hp, Hplay in Hinv'.
    cbn in Hinv'. split; [done|]. intros t h. unfold tick.
    by rewrite Hinv', lookup_empty.
Qed.

(** X9. [toggleReverse] flips the direction and keeps [isPlaying] and the
    speed.  While playing it restarts the interval: the old one is gone
    and the only interval is a new one with the new direction, whose
    first tick is a full period after the call. *)
Theorem toggleReverse_restarts now st :
  reachable st →
  reverse (toggleReverse now st) = negb (reverse st) ∧
  isPlaying (toggleReverse now st) = isPlaying st ∧
  speed (toggleReverse now st) = speed st ∧
  (isPlaying st = true →
     (∀ h, effectInterval st = Some h →
        intervals (toggleReverse now st) !! h = None) ∧
     intervals (toggleReverse now st)
     = {[nextIntervalId st :=
           Interval (baseInterval / speed st)
             (now + baseInterval / speed st) (negb (reverse st))]}) ∧
  (isPlaying st = false → intervals (toggleReverse now st) = ∅).
Proof.
  intros Hinv%autoPlay_reachable_inv.
  unfold toggleReverse, render. rewrite bool_decide_false; last first.
  { destruct st as [? ? [] ? ? ? ?]; cbv [deps set_reverse isPlaying speed
      reverse negb]; congruence. }
  destruct (restart_inv now st Hinv (isPlaying st) (speed st)
              (negb (reverse st))) as [Hinv' Hiv].
  unfold set_reverse.
  set (st' := effect now _) in *.
  assert (reverse st' = negb (reverse st) ∧ isPlaying st' = isPlaying st ∧
          speed st' = speed st) as (Hr & Hp & Hs).
  { subst st'. destruct st as [[] ? ? ? ? ? []]; done. }
  split; [done|]. split; [done|]. split; [done|]. split.
  - intros Hplay. specialize (Hiv Hplay). rewrite Hiv. split; [|done].
    intros h Hh. destruct Hinv as [Hf Hinv]. rewrite Hplay in Hinv.
    destruct Hinv as (h0 & iv & Hh0 & Hm & _).
    rewrite lookup_singleton_ne; [done|].
    assert (h < nextIntervalId st)%positive; [|lia].
    apply (Hf h iv). rewrite Hm. replace h0 with h by congruence.
    apply lookup_singleton_eq.
  - intros Hplay. destruct Hinv' as [_ Hinv']. rewrite Hp, Hplay in Hinv'.
    done.
Qed.

(** X11. With a speed in the range of the slider of [AutoPlayControls]
    (0.5 to 3) the period of the running interval is between 800 and
    4800 ms. *)
Theorem period_bounds st :
  reachable st → isPlaying st = true →
  Qc_of_Z 1 / Qc_of_Z 2 ≤ speed st → speed st ≤ Qc_of_Z 3 →
  ∃ h iv, intervals st = {[h := iv]} ∧
          Qc_of_Z 800 ≤ period iv ∧ period iv ≤ Qc_of_Z 4800.
Proof.
  intros [_ Hinv]%autoPlay_reachable_inv Hp Hlo Hhi. rewrite Hp in Hinv.
  destruct Hinv as (h & iv & _ & Hm & Hper & _).
  exists h, iv. split; [done|]. rewrite Hper.
  assert (0 < speed st) as Hpos.
  { eapply Qclt_le_trans; [|exact Hlo]. by vm_compute. }
  assert (speed st ≠ 0) as Hne.
  { intros H0. rewrite H0 in Hpos. by apply Qclt_not_eq in Hpos. }
  assert (baseInterval / speed st * speed st = baseInterval) as Hmul.
  { rewrite Qcmult_comm. by apply Qcmult_div_r. }
  split.
  - apply (Qcmult_le_mono_pos_r _ _ (speed st) Hpos). rewrite Hmul.
    eapply Qcle_trans.
    + apply Qcmult_le_mono_nonneg_l; [by vm_compute|exact Hhi].
    + by vm_compute.
  - apply (Qcmult_le_mono_pos_r _ _ (speed st) Hpos). rewrite Hmul.
    eapply Qcle_trans.
    + instantiate (1 := Qc_of_Z 4800 * (Qc_of_Z 1 / Qc_of_Z 2)).
      by vm_compute.
    + apply Qcmult_le_mono_nonneg_l; [by vm_compute|exact Hlo].
Qed.

(** *** The statements at concrete inputs *)

Lemma reachable_playing : reachable (togglePlay 0 init).
Proof.
  by apply (reachable_step 0 TogglePlay init _ None); [constructor|].
Qed.

Lemma togglePlay_starts_and_stops_witness :
  reachable (togglePlay 0 init) ∧
  isPlaying (togglePlay 0 init) = true ∧
  intervals (togglePlay (Qc_of_Z 5000) (togglePlay 0 init)) = ∅.
Proof.
  destruct (togglePlay_starts_and_stops (Qc_of_Z 5000) (togglePlay 0 init)
              reachable_playing) as (_ & _ & Hstop).
  split; [exact reachable_playing|]. split; [reflexivity|].
  exact (proj1 (Hstop eq_refl)).
Defined.

Lemma toggleReverse_restarts_witness :
  reachable (togglePlay 0 init) ∧
  isPlaying (togglePlay 0 init) = true ∧
  reverse (toggleReverse (Qc_of_Z 1000) (togglePlay 0 init))
  = negb (reverse (togglePlay 0 init)) ∧
  intervals (toggleReverse (Qc_of_Z 1000) (togglePlay 0 init))
  = {[nextIntervalId (togglePlay 0 init) :=
        Interval (baseInterval / speed (togglePlay 0 init))
          (Qc_of_Z 1000 + baseInterval / speed (togglePlay 0 init))
          (negb (reverse (togglePlay 0 init)))]}.
Proof.
  destruct (toggleReverse_restarts (Qc_of_Z 1000) (togglePlay 0 init)
              reachable_playing) as (Hr & _ & _ & Hplay & _).
  split; [exact reachable_playing|]. split; [reflexivity|].
  split; [exact Hr|]. exact (proj2 (Hplay eq_refl)).
Defined.

Lemma period_bounds_witness :
  reachable (togglePlay 0 init) ∧
  isPlaying (togglePlay 0 init) = true ∧
  Qc_of_Z 1 / Qc_of_Z 2 ≤ speed (togglePlay 0 init) ∧
  speed (togglePlay 0 init) ≤ Qc_of_Z 3 ∧
  ∃ h iv, intervals (togglePlay 0 init) = {[h := iv]} ∧
          Qc_of_Z 800 ≤ period iv ∧ period iv ≤ Qc_of_Z 4800.
Proof.
  assert (Qc_of_Z 1 / Qc_of_Z 2 ≤ speed (togglePlay 0 init)) as Hlo.
  { vm_compute. discriminate. }
  assert (speed (togglePlay 0 init) ≤ Qc_of_Z 3) as Hhi.
  { vm_compute. discriminate. }
  split; [exact reachable_playing|]. split; [reflexivity|].
  split; [exact Hlo|]. split; [exact Hhi|].
  exact (period_bounds _ reachable_playing eq_refl Hlo Hhi).
Defined.

End AutoPlayRuns.

(** ** The notification hook over whole executions *)

Module NotificationRuns.
Import Notification NotificationFacts.

(** X12. In every reachable state of [useNotification] a message is shown
    exactly while its expiry is pending: either nothing is shown and no
    timer is pending, or a message is shown and the only pending timer is
    the one the ref remembers. *)
Theorem shown_iff_expiry_pending st :
  reachable st →
  (notification st = None ∧ timers st = ∅) ∨
  (∃ message h due,
     notification st = Some message ∧ notificationTimer st = Some h ∧
     timers st = {[h := due]}).
Proof.
  induction 1 as [|now ev st st' Hr IH Hstep]; [by left|].
  pose proof (notification_reachable_wf _ Hr) as Hwf.
  destruct ev as [message duration|h]; cbn in Hstep.
  - injection Hstep as <-. right.
    exists message, (nextTimerId st), (now + default 2000 duration)%Z.
    split; [done|]. split; [done|]. by apply showNotification_timers.
  - unfold fireTimeout in Hstep.
    destruct (timers st !! h) as [d|] eqn:Hh; [|done].
    case_bool_decide; [|done]. injection Hstep as <-. left.
    destruct IH as [[_ Ht]|(m & h' & d' & _ & _ & Ht)].
    + by rewrite Ht, lookup_empty in Hh.
    + rewrite Ht in Hh. apply lookup_singleton_Some in Hh as [<- <-].
      split; [done|]. cbn. rewrite Ht. apply delete_singleton_eq.
Qed.

(** *** The statement at a concrete input *)

Lemma shown_iff_expiry_pending_witness :
  let st := showNotification "Auto-play ON" None 1000 init in
  reachable st ∧
  ((notification st = None ∧ timers st = ∅) ∨
   (∃ message h due,
      notification st = Some message ∧ notificationTimer st = Some h ∧
      timers st = {[h := due]})).
Proof.
  intros st.
  assert (reachable st) as Hr.
  { apply (reachable_step 1000 (ShowNotification "Auto-play ON" None) init);
      [apply reachable_init|reflexivity]. }
  split; [exact Hr|]. exact (shown_iff_expiry_pending st Hr).
Defined.

End NotificationRuns.

(** ** The content hook: what a handler does from call to return *)

Module ContentRuns.
Import ImageContent ImageContentFacts ContentMachine.

(** X13. The guard is released on every exit: whatever the backend
    answers, a handler that starts with [isNavigating] unset ends with it
    unset, also when a call was rejected. *)
Theorem guard_released e h answers s s' calls o :
  isNavigating s = false →
  run 5 answers 0 (body e h) s = (s', calls, o) →
  isNavigating s' = false.
Proof.
  destruct s as [? ? ? ? ? nav cs], e as [dev ? ?]. cbn. intros ->.
  destruct h; cbn; try destruct dev; cbn; intros Hrun.
  all: run_cases; by simplify_eq.
Qed.

(** X14. A handler stops at its first rejected call: every backend call
    but the last one it makes was fulfilled. *)
Theorem stops_at_first_rejection e h answers s s' calls o :
  run 5 answers 0 (body e h) s = (s', calls, o) →
  Forall (λ p : command * bool, p.2 = true) (removelast calls).
Proof.
  destruct s as [? ? ? ? ? nav cs], e as [dev ? ?].
  destruct h; cbn; try destruct dev; try destruct nav; cbn; intros Hrun.
  all: run_cases; simplify_eq; cbn; repeat constructor.
Qed.

(** X15. A page navigation that the backend answers: with the guard free,
    [handleNextPage] ([handlePrevPage]) calls [next_page] ([prev_page])
    and then [get_scene_info], stores both results, releases the guard
    and leaves [loading], [error] and the loop flag as they were. *)
Theorem page_navigation_success (answers : backend) s
    (d : ImageData) (i : SceneInfo) :
  isNavigating s = false → answers 1%nat GetSceneInfo = inl i →
  (answers 0%nat NextPage = inl d →
   ∃ s', run 5 answers 0 handleNextPage s
         = (s', [(NextPage, true); (GetSceneInfo, true)], Fulfilled) ∧
     imageData s' = Some d ∧ sceneInfo s' = Some i ∧
     isNavigating s' = false ∧ loading s' = loading s ∧
     error s' = error s ∧ sceneLoopEnabled s' = sceneLoopEnabled s) ∧
  (answers 0%nat PrevPage = inl d →
   ∃ s', run 5 answers 0 handlePrevPage s
         = (s', [(PrevPage, true); (GetSceneInfo, true)], Fulfilled) ∧
     imageData s' = Some d ∧ sceneInfo s' = Some i ∧
     isNavigating s' = false ∧ loading s' = loading s ∧
     error s' = error s ∧ sceneLoopEnabled s' = sceneLoopEnabled s).
Proof.
  destruct s as [? ? ? ? ? nav cs]. cbn. intros -> Hi.
  split; intros Hp; cbn; rewrite Hp; cbn; rewrite Hi; cbn; by eexists.
Qed.

(** X16. A scene navigation that the backend answers shows the first page
    of the new scene: [handleNextScene] ([handlePrevScene]) calls
    [next_scene] ([prev_scene]) and then [get_image] with no scene index
    and page 0, stores both results and touches nothing else; it neither
    reads nor sets the guard of the page navigations. *)
Theorem scene_navigation_success (answers : backend) s
    (d : ImageData) (i : SceneInfo) :
  answers 1%nat (GetImage None 0) = inl d →
  (answers 0%nat NextScene = inl i →
   ∃ s', run 5 answers 0 handleNextScene s
         = (s', [(NextScene, true); (GetImage None 0, true)], Fulfilled) ∧
     imageData s' = Some d ∧ sceneInfo s' = Some i ∧
     isNavigating s' = isNavigating s ∧ loading s' = loading s ∧
     error s' = error s ∧ sceneLoopEnabled s' = sceneLoopEnabled s) ∧
  (answers 0%nat PrevScene = inl i →
   ∃ s', run 5 answers 0 handlePrevScene s
         = (s', [(PrevScene, true); (GetImage None 0, true)], Fulfilled) ∧
     imageData s' = Some d ∧ sceneInfo s' = Some i ∧
     isNavigating s' = isNavigating s ∧ loading s' = loading s ∧
     error s' = error s ∧ sceneLoopEnabled s' = sceneLoopEnabled s).
Proof.
  destruct s as [? ? ? ? ? nav cs]. cbn. intros Hd.
  split; intros Hi; cbn; rewrite Hi; cbn; rewrite Hd; cbn; by eexists.
Qed.

(** X17. The initial load that the backend answers.  In development the
    scene path is [VITE_SCENE_PATH] or ["./test-scenes/my-photos"]; in
    production it is the join of the application data directory,
    ["scenes"] and [VITE_SCENE_NAME] or ["my-photos"].  The collection is
    loaded from it, then the scene info and page 0 are fetched and
    stored, and the load ends with [loading] unset and no error. *)
Theorem initial_load_success (answers : backend) e s
    (d : ImageData) (i : SceneInfo) :
  (DEV e = true →
   let path := orElse (VITE_SCENE_PATH e) "./test-scenes/my-photos" in
   answers 0%nat (LoadSceneCollection path) = inl tt →
   answers 1%nat GetSceneInfo = inl i →
   answers 2%nat (GetImage None 0) = inl d →
   ∃ s', run 5 answers 0 (loadInitialScene e) s
         = (s', [(LoadSceneCollection path, true); (GetSceneInfo, true);
                 (GetImage None 0, true)], Fulfilled) ∧
     imageData s' = Some d ∧ sceneInfo s' = Some i ∧
     loading s' = false ∧ error s' = None) ∧
  (DEV e = false →
   ∀ appData path : string,
   let sceneName := orElse (VITE_SCENE_NAME e) "my-photos" in
   answers 0%nat AppDataDir = inl appData →
   answers 1%nat (Join appData "scenes" sceneName) = inl path →
   answers 2%nat (LoadSceneCollection path) = inl tt →
   answers 3%nat GetSceneInfo = inl i →
   answers 4%nat (GetImage None 0) = inl d →
   ∃ s', run 5 answers 0 (loadInitialScene e) s
         = (s', [(AppDataDir, true);
                 (Join appData "scenes" sceneName, true);
                 (LoadSceneCollection path, true); (GetSceneInfo, true);
                 (GetImage None 0, true)], Fulfilled) ∧
     imageData s' = Some d ∧ sceneInfo s' = Some i ∧
     loading s' = false ∧ error s' = None).
Proof.
  destruct s as [? ? ? ? ? nav cs], e as [dev sp sn]. cbn.
  split; intros ->.
  - intros H0 H1 H2. cbn. rewrite H0. cbn. rewrite H1. cbn. rewrite H2.
    cbn. by eexists.
  - intros appData path H0 H1 H2 H3 H4. cbn. rewrite H0. cbn.
    rewrite H1. cbn. rewrite H2. cbn. rewrite H3. cbn. rewrite H4. cbn.
    by eexists.
Qed.

(** X18. [handleSceneLoopToggle], called with the flag as rendered, is
    optimistic: it sets the flag to its negation at once, before the
    backend has answered, and sends the new value with
    [set_scene_loop_enabled] as its only call; when the call is fulfilled
    the new value stays, when it is rejected the old value is put back.
    The load of the flag on mount stores the answer of
    [get_scene_loop_enabled] and keeps the flag when that call is
    rejected.  The toggle touches neither the image, the scene info,
    [loading] nor [error]. *)
Theorem scene_loop_toggle_is_optimistic (answers : backend) s :
  let newState := negb (sceneLoopEnabled s) in
  (sceneLoopEnabled (advance handleSceneLoopToggle s).1 = newState ∧
   ∃ k, (advance handleSceneLoopToggle s).2
        = Await (SetSceneLoopEnabled newState) k) ∧
  (∃ s', run 5 answers 0 handleSceneLoopToggle s
         = (s', [(SetSceneLoopEnabled newState,
                  fulfilled (answers 0%nat (SetSceneLoopEnabled newState)))],
            Fulfilled) ∧
     sceneLoopEnabled s'
     = (if fulfilled (answers 0%nat (SetSceneLoopEnabled newState))
        then newState else sceneLoopEnabled s) ∧
     imageData s' = imageData s ∧ sceneInfo s' = sceneInfo s ∧
     loading s' = loading s ∧ error s' = error s) ∧
  (∃ s', run 5 answers 0 loadSceneLoopState s
         = (s', [(GetSceneLoopEnabled,
                  fulfilled (answers 0%nat GetSceneLoopEnabled))],
            Fulfilled) ∧
     sceneLoopEnabled s'
     = match answers 0%nat GetSceneLoopEnabled with
       | inl enabled => enabled
       | inr _ => sceneLoopEnabled s
       end).
Proof.
  destruct s as [? ? ? ? loop nav cs]. cbn. split; [|split].
  - split; [done|]. by eexists.
  - destruct (answers 0%nat (SetSceneLoopEnabled (negb loop))) as [[]|err];
      cbn; eexists; (split; [reflexivity|]); cbn;
      by rewrite ?negb_involutive.
  - destruct (answers 0%nat GetSceneLoopEnabled) as [b|err];
      cbn; eexists; (split; [reflexivity|]); done.
Qed.

(** *** Interleaved handlers *)

Lemma advance_catches {A} (t : async A) s :
  catches t →
  match (advance t s).2 with
  | Await c k => ∀ r, catches (k r)
  | Return _ => True
  | _ => False
  end.
Proof.
  intros Hc. revert s.
  induction Hc as [|k _ IH|f k _ IH|c k Hk _]; intros s; cbn;
    [done|apply IH|apply IH|done].
Qed.

Lemma advance_quiet {A} (t : async A) s :
  quiet t →
  error (advance t s).1 = error s ∧ loading (advance t s).1 = loading s ∧
  match (advance t s).2 with
  | Await c k => ∀ r, quiet (k r)
  | Read _ | Write _ _ => False
  | _ => True
  end.
Proof.
  intros Hq. revert s.
  induction Hq as [| |k _ IH|f k Hf _ IH|c k Hk _]; intros s; cbn;
    [done|done|apply IH| |done].
  destruct (IH (f s)) as (-> & -> & ?). by destruct (Hf s) as [-> ->].
Qed.

Ltac catches_tac :=
  repeat first
    [ progress cbn
    | apply catches_return
    | apply catches_write
    | apply catches_read; intros ?
    | apply catches_await; intros [?|?]
    | match goal with
      | |- context [if ?b then _ else _] => destruct b
      end ].

Ltac quiet_tac :=
  repeat first
    [ progress cbn
    | apply quiet_return | apply quiet_throw
    | apply quiet_write; [by intros []|]
    | apply quiet_read; intros ?
    | apply quiet_await; intros [?|?]
    | match goal with
      | |- context [if ?b then _ else _] => destruct b
      end ].

Lemma body_catches e h : catches (body e h).
Proof. destruct e as [dev ? ?], h; cbn; try destruct dev; catches_tac. Qed.

Lemma body_quiet e h : h ≠ LoadInitialScene → quiet (body e h).
Proof. destruct h; try done; intros _; quiet_tac. Qed.

Lemma place_handled h t s m :
  machineInv m →
  match t with
  | Await c k => ∀ r, catches (k r) ∧ (h ≠ LoadInitialScene → quiet (k r))
  | Return _ => True
  | _ => False
  end →
  machineInv (place h t s m).
Proof.
  intros [Hf Hu] Ht. destruct t; try done; cbn; (split; [|done]);
    try done.
  apply Forall_app. split; [done|]. apply Forall_singleton.
  by eexists _, _.
Qed.

Lemma advance_handled h (t : async unit) s :
  catches t → (h ≠ LoadInitialScene → quiet t) →
  match (advance t s).2 with
  | Await c k => ∀ r, catches (k r) ∧ (h ≠ LoadInitialScene → quiet (k r))
  | Return _ => True
  | _ => False
  end.
Proof.
  intros Hc Hq. pose proof (advance_catches t s Hc) as Hc'.
  destruct (advance t s).2 eqn:Ht; try done.
  intros r. split; [done|]. intros Hh.
  destruct (advance_quiet t s (Hq Hh)) as (_ & _ & Hq').
  rewrite Ht in Hq'. done.
Qed.

Lemma machineInv_call e h m : machineInv m → machineInv (call e h m).
Proof.
  intros Hinv. unfold call.
  pose proof (advance_handled h (body e h) (ui m) (body_catches e h)
                (body_quiet e h)) as Hadv.
  destruct (advance (body e h) (ui m)) as [s t]. by apply place_handled.
Qed.

Lemma machineInv_settle i answer m m' :
  machineInv m → settle i answer m = Some m' → machineInv m'.
Proof.
  intros [Hf Hu] Hsettle. unfold settle in Hsettle.
  destruct (inflight m !! i) as [[h t]|] eqn:Hi; [|done].
  pose proof (Forall_lookup_1 _ _ _ _ Hf Hi) as (c & k & Ht & Hk).
  cbn in Ht. subst t. cbn in Hk. destruct (Hk (answer c)) as [Hc Hq].
  pose proof (advance_handled h _ (ui m) Hc Hq) as Hadv.
  destruct (advance (k (answer c)) (ui m)) as [s t].
  injection Hsettle as <-. apply place_handled; [|done].
  split; [|done]. by apply Forall_delete.
Qed.

Lemma reachable_machineInv e m : reachable e m → machineInv m.
Proof.
  induction 1 as [|ev m m' _ IH Hstep].
  - unfold mount. do 2 apply machineInv_call. split; [constructor|done].
  - destruct ev as [h|i answer]; cbn in Hstep.
    + destruct h; simplify_eq; by apply machineInv_call.
    + by eapply machineInv_settle.
Qed.

(** X19. However the handlers interleave and whatever the backend
    answers, no handler of [useImageContent] ends in a rejection nobody
    handles. *)
Theorem no_unhandled_rejection e m : reachable e m → unhandled m = [].
Proof. by intros [_ ?]%reachable_machineInv. Qed.

Lemma place_ui h t s m : ui (place h t s m) = s.
Proof. by destruct t. Qed.

(** X20. Only the initial load moves the loading indicator and the error
    banner: a step of the interleaved handlers that is not the
    continuation of [loadInitialScene] leaves [error] and [loading] as
    they were. *)
Theorem banner_changes_only_by_load e ev m m' :
  reachable e m → step e ev m = Some m' →
  (∀ i answer t, ev = Settle i answer →
     inflight m !! i ≠ Some (LoadInitialScene, t)) →
  error (ui m') = error (ui m) ∧ loading (ui m') = loading (ui m).
Proof.
  intros [Hf _]%reachable_machineInv Hstep Hev.
  destruct ev as [h|i answer]; cbn in Hstep.
  - assert (h ≠ LoadInitialScene) as Hh by (by destruct h).
    assert (m' = call e h m) as -> by (by destruct h; simplify_eq).
    unfold call.
    destruct (advance_quiet (body e h) (ui m) (body_quiet e h Hh))
      as (He & Hl & _).
    destruct (advance (body e h) (ui m)) as [s t]. by rewrite place_ui.
  - unfold settle in Hstep.
    destruct (inflight m !! i) as [[h t]|] eqn:Hi; [|done].
    pose proof (Forall_lookup_1 _ _ _ _ Hf Hi) as (c & k & Ht & Hk).
    cbn in Ht. subst t. cbn in Hk. destruct (Hk (answer c)) as [_ Hq].
    assert (h ≠ LoadInitialScene) as Hh.
    { intros ->. by eapply Hev. }
    destruct (advance_quiet _ (ui m) (Hq Hh)) as (He & Hl & _).
    destruct (advance (k (answer c)) (ui m)) as [s t].
    injection Hstep as <-. by rewrite place_ui.
Qed.

(** *** What App shows after the initial load *)

(** X21. When [loadInitialScene] has returned the loading indicator is
    off; if a call was rejected the error banner is shown and the viewer
    is not, and if every call was fulfilled the viewer is shown and the
    banner is not. *)
Theorem view_after_load e answers s s' calls o :
  run 5 answers 0 (loadInitialScene e) s = (s', calls, o) →
  View.showsLoading s' = false ∧
  ((∃ c, (c, false) ∈ calls) →
     View.showsError s' = true ∧ View.showsViewer s' = false) ∧
  (Forall (λ p : command * bool, p.2 = true) calls →
     View.showsError s' = false ∧ View.showsViewer s' = true).
Proof.
  destruct s as [? ? ? ? ? nav ?], e as [dev ? ?].
  cbn. destruct dev; cbn; intros Hrun.
  all: run_cases; simplify_eq; cbn; (split; [done|]).
  all: split; [intros [c Hc]|intros Hall]; try done.
  all: try (by elem_cases Hc).
  all: try (unfold View.showsViewer; cbn; by rewrite andb_false_r).
  all: repeat (apply Forall_cons in Hall as [? Hall]); try done.
Qed.

(** *** The statements at concrete inputs *)

Lemma guard_released_witness :
  let e := Env true None None in
  isNavigating initialStore = false ∧
  isNavigating
    (run 5 offline 0 (body e HandleNextPage) initialStore).1.1 = false.
Proof.
  intros e. split; [reflexivity|].
  exact (guard_released e HandleNextPage offline initialStore _ _ _
           eq_refl eq_refl).
Defined.

Lemma stops_at_first_rejection_witness :
  let e := Env true None None in
  Forall (λ p : command * bool, p.2 = true)
    (removelast
       (run 5 sceneInfoFails 0 (body e HandleNextPage) initialStore).1.2).
Proof.
  intros e.
  exact (stops_at_first_rejection e HandleNextPage sceneInfoFails
           initialStore _ _ _ eq_refl).
Defined.

Lemma page_navigation_success_witness :
  isNavigating initialStore = false ∧
  online 1%nat GetSceneInfo = inl scene1 ∧
  online 0%nat NextPage = inl page1 ∧
  ∃ s', run 5 online 0 handleNextPage initialStore
        = (s', [(NextPage, true); (GetSceneInfo, true)], Fulfilled) ∧
    imageData s' = Some page1 ∧ sceneInfo s' = Some scene1.
Proof.
  split; [reflexivity|]. split; [reflexivity|]. split; [reflexivity|].
  destruct (proj1 (page_navigation_success online initialStore page1
                     scene1 eq_refl eq_refl) eq_refl)
    as (s' & Hrun & Hd & Hi & _).
  exists s'. split; [exact Hrun|]. split; [exact Hd|exact Hi].
Defined.

Lemma scene_navigation_success_witness :
  online 1%nat (GetImage None 0) = inl page1 ∧
  online 0%nat NextScene = inl scene1 ∧
  ∃ s', run 5 online 0 handleNextScene initialStore
        = (s', [(NextScene, true); (GetImage None 0, true)], Fulfilled) ∧
    imageData s' = Some page1 ∧ sceneInfo s' = Some scene1.
Proof.
  split; [reflexivity|]. split; [reflexivity|].
  destruct (proj1 (scene_navigation_success online initialStore page1
                     scene1 eq_refl) eq_refl)
    as (s' & Hrun & Hd & Hi & _).
  exists s'. split; [exact Hrun|]. split; [exact Hd|exact Hi].
Defined.

Lemma initial_load_success_witness :
  let e := Env true None None in
  DEV e = true ∧
  ∃ s', run 5 online 0 (loadInitialScene e) initialStore
        = (s', [(LoadSceneCollection "./test-scenes/my-photos", true);
                (GetSceneInfo, true); (GetImage None 0, true)],
           Fulfilled) ∧
    imageData s' = Some page1 ∧ sceneInfo s' = Some scene1 ∧
    loading s' = false ∧ error s' = None.
Proof.
  intros e. split; [reflexivity|].
  exact (proj1 (initial_load_success online e initialStore page1 scene1)
           eq_refl eq_refl eq_refl eq_refl).
Defined.

Lemma no_unhandled_rejection_witness :
  let e := Env true None None in
  let m := call e HandleNextPage (mount e) in
  reachable e m ∧ unhandled m = [].
Proof.
  intros e m.
  assert (reachable e m) as Hr.
  { apply (reachable_step e (Call HandleNextPage) (mount e));
      [apply reachable_mount|reflexivity]. }
  split; [exact Hr|]. exact (no_unhandled_rejection e m Hr).
Defined.

Lemma banner_changes_only_by_load_witness :
  let e := Env true None None in
  let m := call e HandleNextScene (mount e) in
  reachable e (mount e) ∧
  step e (Call HandleNextScene) (mount e) = Some m ∧
  error (ui m) = error (ui (mount e)) ∧
  loading (ui m) = loading (ui (mount e)).
Proof.
  intros e m.
  split; [apply reachable_mount|]. split; [reflexivity|].
  apply (banner_changes_only_by_load e (Call HandleNextScene) (mount e) m
           (reachable_mount e) eq_refl).
  intros i answer t Hev. discriminate Hev.
Defined.

Lemma view_after_load_witness :
  let e := Env true None None in
  let r := run 5 offline 0 (loadInitialScene e) initialStore in
  (∃ c, (c, false) ∈ r.1.2) ∧
  View.showsLoading r.1.1 = false ∧ View.showsError r.1.1 = true ∧
  View.showsViewer r.1.1 = false.
Proof.
  intros e r.
  assert (∃ c, (c, false) ∈ r.1.2) as Hfail.
  { exists (LoadSceneCollection "./test-scenes/my-photos").
    apply elem_of_cons. left. reflexivity. }
  destruct (view_after_load e offline initialStore _ _ _ eq_refl)
    as (Hl & Herr & _).
  split; [exact Hfail|]. split; [exact Hl|]. exact (Herr Hfail).
Defined.

End ContentRuns.

(** ** The file name shown by ImageInfo *)

Module FileNameFacts.
Import Stdlib.Strings.Ascii Stdlib.Strings.String FileName.
Local Open Scope string_scope.

Lemma split_nonempty path : split path ≠ [].
Proof.
  destruct path as [|c rest]; [done|]. cbn.
  destruct (isSeparator c); [done|]. by destruct (split rest).
Qed.

Lemma split_plain path : Forall (λ piece, plain piece = true) (split path).
Proof.
  induction path as [|c rest IH]; cbn; [by repeat constructor|].
  destruct (isSeparator c) eqn:Hc; [by constructor|].
  pose proof (split_nonempty rest) as Hne.
  destruct (split rest) as [|piece pieces]; [done|].
  inversion_clear IH as [|? ? Hp Hps]. constructor; [|done].
  cbn. by rewrite Hc.
Qed.

Lemma split_plain_id name : plain name = true → split name = [name].
Proof.
  induction name as [|c rest IH]; [done|]. cbn.
  intros [Hc Hr]%andb_true_iff. apply negb_true_iff in Hc.
  by rewrite Hc, (IH Hr).
Qed.

(** Splitting a path at one of its separators and splitting the two
    halves give the same pieces. *)
Lemma split_app dir sep rest :
  isSeparator sep = true →
  split (dir +:+ String sep rest) = (split dir ++ split rest)%list.
Proof.
  intros Hsep. induction dir as [|c dir IH].
  - change (split (String sep rest) = EmptyString :: split rest).
    cbn. by rewrite Hsep.
  - change (split (String c (dir +:+ String sep rest))
            = (split (String c dir) ++ split rest)%list).
    cbn. destruct (isSeparator c); [by rewrite IH|]. rewrite IH.
    pose proof (split_nonempty dir) as Hne.
    by destruct (split dir).
Qed.

(** X22. The file name of a path is what follows its last slash or
    backslash: for a name without separators, [dir/name] and [dir\name]
    give [name] whatever [dir] is, and so does [name] alone. *)
Theorem fileName_after_separator dir sep name :
  isSeparator sep = true → plain name = true →
  fileName (dir +:+ String sep name) = Some name ∧
  fileName name = Some name.
Proof.
  intros Hsep Hname. unfold fileName, pop.
  rewrite split_app, last_app, split_plain_id by done. done.
Qed.

Lemma fileName_cases path name :
  fileName path = Some name →
  path = name ∨
  ∃ dir sep, isSeparator sep = true ∧ path = dir +:+ String sep name.
Proof.
  unfold fileName, pop. revert name.
  induction path as [|c rest IH]; intros name; cbn.
  - intros [= <-]. by left.
  - pose proof (split_nonempty rest) as Hne.
    pose proof (split_plain rest) as Hplain.
    destruct (isSeparator c) eqn:Hc.
    + destruct (split rest) as [|p ps] eqn:Hs; [done|]. cbn.
      intros Hlast. right.
      destruct (IH _ Hlast) as [->|(dir & sep & ? & ->)].
      * by exists EmptyString, c.
      * by exists (String c dir), sep.
    + destruct (split rest) as [|p ps] eqn:Hs; [done|].
      destruct ps as [|q qs].
      * cbn. intros [= <-]. left.
        destruct (IH p eq_refl) as [->|(dir & sep & Hsep & ->)]; [done|].
        rewrite split_app in Hs by done.
        pose proof (split_nonempty dir). pose proof (split_nonempty p).
        destruct (split dir) as [|? [|? ?]], (split p); simplify_eq/=.
      * intros Hlast. change (last (p :: q :: qs) = Some name) in Hlast.
        destruct (IH _ Hlast) as [->|(dir & sep & ? & ->)].
        -- assert (plain name = true) as Hn.
           { apply last_Some in Hlast as [l' Hl]. rewrite Hl in Hplain.
             apply Forall_app in Hplain as [_ Hp].
             by inversion_clear Hp. }
           rewrite (split_plain_id _ Hn) in Hs. done.
        -- right. by exists (String c dir), sep.
Qed.

(** X23. Every path has a file name ([pop] never meets an empty array);
    the name holds no separator, and the path is the name itself or ends
    in a separator followed by the name. *)
Theorem fileName_shape path :
  ∃ name, fileName path = Some name ∧ plain name = true ∧
    (path = name ∨
     ∃ dir sep, isSeparator sep = true ∧ path = dir +:+ String sep name).
Proof.
  pose proof (split_nonempty path) as Hne.
  pose proof (split_plain path) as Hplain.
  destruct (last (split path)) as [name|] eqn:Hlast; last first.
  { by apply last_None in Hlast. }
  exists name. split; [done|]. split; [|by apply fileName_cases].
  apply last_Some in Hlast as [l' Hl]. rewrite Hl in Hplain.
  apply Forall_app in Hplain as [_ Hp]. by inversion_clear Hp.
Qed.

(** *** The statement at a concrete input *)

Lemma fileName_after_separator_witness :
  isSeparator "092" = true ∧ plain "001.jpg" = true ∧
  fileName ("C:/scenes/my-photos" +:+ String "092" "001.jpg")
  = Some "001.jpg".
Proof.
  assert (isSeparator "092" = true) as Hsep by (vm_compute; reflexivity).
  assert (plain "001.jpg" = true) as Hname by (vm_compute; reflexivity).
  split; [exact Hsep|]. split; [exact Hname|].
  exact (proj1 (fileName_after_separator "C:/scenes/my-photos" "092"
                  "001.jpg" Hsep Hname)).
Defined.

End FileNameFacts.

(** ** The keys of App *)

Module ViewerFacts.
Import ImageContent ImageContentFacts Viewer.
Local Open Scope string_scope.

Lemma togglePlay_isPlaying now st :
  AutoPlay.isPlaying (AutoPlay.togglePlay now st)
  = negb (AutoPlay.isPlaying st).
Proof.
  unfold AutoPlay.togglePlay, AutoPlay.render.
  case_bool_decide as Hd.
  - destruct st as [[] ? ? ? ? ? ?]; cbv in Hd; congruence.
  - by destruct st as [[] ? ? ? ? ? []].
Qed.

(** X24. An arrow key navigates and holds auto-play back: ArrowLeft and
    ArrowUp call [handlePrevPage], ArrowRight and ArrowDown call
    [handleNextPage], none prevents the default action, [pausedUntil]
    becomes [now + 1000], and a tick of the auto-play interval before
    that time does not reach the content hook. *)
Theorem arrow_key_pauses_auto_play e key now v v' prevented :
  key ∈ ["ArrowLeft"; "ArrowUp"; "ArrowRight"; "ArrowDown"] →
  keyDown e key now v = Some (v', prevented) →
  prevented = false ∧
  content v'
  = call e (if bool_decide (key ∈ ["ArrowLeft"; "ArrowUp"])
            then HandlePrevPage else HandleNextPage) (content v) ∧
  AutoPlay.pausedUntil (App.autoPlay (hooks v'))
  = (Qc_of_Z now + Qc_of_Z 1000)%Qc ∧
  ∀ t h v'', (t < Qc_of_Z now + Qc_of_Z 1000)%Qc →
    autoPlayTick e t h v' = Some v'' → content v'' = content v'.
Proof.
  intros Hkey. unfold keyDown.
  destruct (App.keydownListener (hooks v)); [|done].
  assert (
    let r := handleKeyDown (keyMap e) key now v in
    r.2 = false ∧
    content r.1
    = call e (if bool_decide (key ∈ ["ArrowLeft"; "ArrowUp"])
              then HandlePrevPage else HandleNextPage) (content v) ∧
    AutoPlay.pausedUntil (App.autoPlay (hooks r.1))
    = (Qc_of_Z now + Qc_of_Z 1000)%Qc) as Hr.
  { repeat (apply elem_of_cons in Hkey as [->|Hkey]);
      [| | | |by apply elem_of_nil in Hkey]; by vm_compute. }
  intros [= Heq]. rewrite Heq in Hr. destruct Hr as (Hp & Hc & Hpu).
  cbn in Hp, Hc, Hpu.
  split; [done|]. split; [done|]. split; [done|].
  intros t h v'' Hlt. unfold autoPlayTick.
  destruct (AutoPlay.tick t h _) as [[ap out]|] eqn:Htick; [|done].
  apply AutoPlayFacts.tick_spec in Htick as (iv & _ & -> & _).
  unfold AutoPlay.onTick. rewrite Hpu, bool_decide_true by done.
  by intros [= <-].
Qed.

(** X25. Escape and every key the map does not name do nothing: the key
    is logged, no default is prevented and neither the content hook nor
    the hooks with timers change. *)
Theorem other_keys_do_nothing e key now v v' prevented :
  key ∉ ["ArrowLeft"; "ArrowUp"; "ArrowRight"; "ArrowDown"; " "] →
  keyDown e key now v = Some (v', prevented) →
  prevented = false ∧ content v' = content v ∧ hooks v' = hooks v ∧
  console v' = (console v ++ [String.append "Key pressed: " key])%list.
Proof.
  intros Hkey. unfold keyDown, handleKeyDown.
  destruct (App.keydownListener (hooks v)); [|done].
  destruct (decide (key = "Escape")) as [->|Hesc].
  - by intros [= <- <-].
  - repeat (apply not_elem_of_cons in Hkey as [? Hkey]).
    unfold keyMap. rewrite !lookup_insert_ne, lookup_empty by done.
    by intros [= <- <-].
Qed.

(** X26. The space key prevents the default action, flips [isPlaying]
    and announces the new state: the notification reads "Auto-play ON"
    when auto-play is now playing and "Auto-play OFF" when it is not; the
    content hook is not called. *)
Theorem space_toggles_and_announces e now v v' prevented :
  keyDown e " " now v = Some (v', prevented) →
  prevented = true ∧ content v' = content v ∧
  AutoPlay.isPlaying (App.autoPlay (hooks v'))
  = negb (AutoPlay.isPlaying (App.autoPlay (hooks v))) ∧
  Notification.notification (App.notification (hooks v'))
  = Some (if AutoPlay.isPlaying (App.autoPlay (hooks v'))
          then "Auto-play ON" else "Auto-play OFF").
Proof.
  unfold keyDown.
  destruct (App.keydownListener (hooks v)); [|done].
  change (handleKeyDown (keyMap e) " " now v)
    with (onSpace now (log (String.append "Key pressed: " " ") v)).
  intros [= <- <-]. cbn. rewrite togglePlay_isPlaying.
  repeat split. by destruct (AutoPlay.isPlaying _).
Qed.

(** X27. A tick of auto-play that arrives while a page navigation is in
    flight is dropped by the guard: no backend command is invoked, no
    handler is suspended, and the image and the scene info stay. *)
Theorem tick_dropped_while_navigating e t h v v' :
  reachable e (content v) → pageNavigations (content v) ≠ [] →
  autoPlayTick e t h v = Some v' →
  inflight (content v') = inflight (content v) ∧
  invoked (content v') = invoked (content v) ∧
  imageData (ui (content v')) = imageData (ui (content v)) ∧
  sceneInfo (ui (content v')) = sceneInfo (ui (content v)).
Proof.
  intros [_ Hn]%reachable_guardInv Hp.
  assert (isNavigating (ui (content v)) = true) as Hnav.
  { destruct (isNavigating (ui (content v))); [done|].
    by destruct (pageNavigations (content v)). }
  unfold autoPlayTick.
  destruct (AutoPlay.tick t h _) as [[ap out]|]; [|done].
  intros [= <-]. destruct out as [[]|]; cbn; try done.
  - by destruct (call_page_guarded e HandleNextPage _ eq_refl Hnav)
      as (? & ? & _ & ? & ? & _).
  - by destruct (call_page_guarded e HandlePrevPage _ eq_refl Hnav)
      as (? & ? & _ & ? & ? & _).
Qed.

(** X28. Unmounting [App] in any state its display level and auto-play
    hooks can reach leaves no timer of [useDisplayLevel], no mouse
    listener, no interval of [useAutoPlay] and no [keydown] listener. *)
Theorem unmount_clears_hooks now a :
  DisplayLevel.reachable now (App.displayLevel a) →
  AutoPlay.reachable (App.autoPlay a) →
  DisplayLevel.timers (App.displayLevel (App.unmount a)) = ∅ ∧
  DisplayLevel.listening (App.displayLevel (App.unmount a)) = false ∧
  AutoPlay.intervals (App.autoPlay (App.unmount a)) = ∅ ∧
  App.keydownListener (App.unmount a) = false.
Proof.
  intros (Hwf & _)%DisplayLevelFacts.reachable_inv
    Hinv%AutoPlayFacts.autoPlay_reachable_inv.
  by apply AppFacts.unmount_clears_effects.
Qed.

(** *** The statements at concrete inputs *)

Lemma arrow_key_pauses_auto_play_witness :
  let e := Env true None None in
  let v := State (mount e) App.mount [] in
  "ArrowRight" ∈ ["ArrowLeft"; "ArrowUp"; "ArrowRight"; "ArrowDown"] ∧
  ∃ v', keyDown e "ArrowRight" 1000 v = Some (v', false) ∧
    content v' = call e HandleNextPage (mount e) ∧
    AutoPlay.pausedUntil (App.autoPlay (hooks v'))
    = (Qc_of_Z 1000 + Qc_of_Z 1000)%Qc.
Proof.
  intros e v.
  assert ("ArrowRight"
          ∈ ["ArrowLeft"; "ArrowUp"; "ArrowRight"; "ArrowDown"]) as Hkey.
  { do 2 (apply elem_of_cons; right). apply elem_of_cons. by left. }
  split; [exact Hkey|].
  exists (handleKeyDown (keyMap e) "ArrowRight" 1000 v).1.
  destruct (arrow_key_pauses_auto_play e "ArrowRight" 1000 v
              (handleKeyDown (keyMap e) "ArrowRight" 1000 v).1 false Hkey
              eq_refl) as (_ & Hc & Hpu & _).
  split; [reflexivity|]. split; [exact Hc|exact Hpu].
Defined.

Lemma other_keys_do_nothing_witness :
  let e := Env true None None in
  let v := State (mount e) App.mount [] in
  ("a" ∉ ["ArrowLeft"; "ArrowUp"; "ArrowRight"; "ArrowDown"; " "]) ∧
  ∃ v', keyDown e "a" 1000 v = Some (v', false) ∧
    content v' = content v ∧ hooks v' = hooks v.
Proof.
  intros e v.
  assert ("a" ∉ ["ArrowLeft"; "ArrowUp"; "ArrowRight"; "ArrowDown"; " "])
    as Hkey.
  { intros H. repeat (apply elem_of_cons in H as [H|H]; [discriminate H|]).
    by apply elem_of_nil in H. }
  split; [exact Hkey|].
  exists (handleKeyDown (keyMap e) "a" 1000 v).1.
  destruct (other_keys_do_nothing e "a" 1000 v
              (handleKeyDown (keyMap e) "a" 1000 v).1 false Hkey eq_refl)
    as (_ & Hc & Hh & _).
  split; [reflexivity|]. split; [exact Hc|exact Hh].
Defined.

Lemma space_toggles_and_announces_witness :
  let e := Env true None None in
  let v := State (mount e) App.mount [] in
  ∃ v', keyDown e " " 1000 v = Some (v', true) ∧
    Notification.notification (App.notification (hooks v'))
    = Some "Auto-play ON".
Proof.
  intros e v.
  exists (handleKeyDown (keyMap e) " " 1000 v).1.
  split; [reflexivity|].
  exact (proj2 (proj2 (proj2
    (space_toggles_and_announces e 1000 v
       (handleKeyDown (keyMap e) " " 1000 v).1 true eq_refl)))).
Defined.

Lemma tick_dropped_while_navigating_witness :
  let e := Env true None None in
  let v := State (call e HandleNextPage (mount e))
             (App.pressSpace 0 App.mount) [] in
  reachable e (content v) ∧ pageNavigations (content v) ≠ [] ∧
  invoked ∘ content
    <$> autoPlayTick e (Qc_of_Z 2400) (AutoPlay.nextIntervalId AutoPlay.init)
          v
  = Some (invoked (content v)).
Proof.
  intros e v.
  assert (reachable e (content v)) as Hr.
  { apply (reachable_step e (Call HandleNextPage) (mount e));
      [apply reachable_mount|reflexivity]. }
  assert (pageNavigations (content v) ≠ []) as Hp
    by (vm_compute; discriminate).
  split; [exact Hr|]. split; [exact Hp|].
  destruct (autoPlayTick e (Qc_of_Z 2400)
              (AutoPlay.nextIntervalId AutoPlay.init) v) as [v'|] eqn:Htick;
    [|vm_compute in Htick; discriminate Htick].
  destruct (tick_dropped_while_navigating e _ _ v v' Hr Hp Htick)
    as (_ & Hi & _).
  cbn. f_equal. exact Hi.
Defined.

Lemma unmount_clears_hooks_witness :
  let a := App.pressSpace 1000 App.mount in
  DisplayLevel.reachable 1000 (App.displayLevel a) ∧
  AutoPlay.reachable (App.autoPlay a) ∧
  AutoPlay.intervals (App.autoPlay a) ≠ ∅ ∧
  AutoPlay.intervals (App.autoPlay (App.unmount a)) = ∅ ∧
  App.keydownListener (App.unmount a) = false.
Proof.
  intros a.
  assert (DisplayLevel.reachable 1000 (App.displayLevel a)) as Hd.
  { apply DisplayLevel.reachable_init. lia. }
  assert (AutoPlay.reachable (App.autoPlay a)) as Hp.
  { by apply (AutoPlay.reachable_step (Qc_of_Z 1000) AutoPlay.TogglePlay
                AutoPlay.init _ None); [constructor|]. }
  assert (AutoPlay.intervals (App.autoPlay a) ≠ ∅) as Hne.
  { intros H. vm_compute in H. discriminate H. }
  destruct (unmount_clears_hooks 1000 a Hd Hp) as (_ & _ & Hi & Hk).
  split; [exact Hd|]. split; [exact Hp|]. split; [exact Hne|].
  split; [exact Hi|exact Hk].
Defined.

End ViewerFacts.
